(** * Deduplication storage on BBolt (storage/bbolt/dedup.go)

    A shallow embedding of the Go package [bbolt] of static-ct: the two
    buckets ("leafIdx" and "logSize"), the operations [NewStorage], [Add],
    [Get] and [LogSize], and the binary codec [itob], [btoi], [vtob] and
    [btov], followed by the properties the specification states about them.

    Conventions.
    - A Go [uint64] is a [Z] in the range [0, 2^64); arithmetic that may
      leave the range is wrapped explicitly with [wrap64].
    - A Go [[]byte] is a [list byte]; a [nil] slice that comes out of a
      bucket lookup is [None].
    - A Go function that returns [(v, error)] and may panic returns an
      [outcome]: [Ok v], [Err e] or [Panic p].
    - The embedded store is state: a database is a finite map from bucket
      names to buckets, a bucket a finite map from keys to values.  A
      transaction body is a small state-and-error monad [Tx] over the
      database; [bolt.Update] commits its writes only when it returns
      without error.  Failures of the disk itself are outside the model. *)

From Stdlib Require Import ZArith List Lia Strings.Byte Strings.String.
From stdpp Require Import base option list countable gmap.

Local Open Scope Z_scope.

(** ** Machine integers and bytes *)

Definition uint64_max : Z := 2 ^ 64 - 1.

(** [is_uint64 z]: [z] is a value of Go's [uint64]. *)
Definition is_uint64 (z : Z) : Prop := 0 <= z < 2 ^ 64.

(** Wrap-around of [uint64] arithmetic. *)
Definition wrap64 (z : Z) : Z := z mod 2 ^ 64.

#[global] Instance byte_eq_dec : EqDecision byte := Byte.byte_eq_dec.

Definition byte_of_N_total (n : N) : byte :=
  match Byte.of_N n with Some b => b | None => "000"%byte end.

#[global] Program Instance byte_countable : Countable byte :=
  inj_countable' Byte.to_N byte_of_N_total _.
Next Obligation.
  intros b. unfold byte_of_N_total. now rewrite Byte.of_to_N.
Qed.

(** The conversion [uint64(b)] of a byte. *)
Definition Z_of_byte (b : byte) : Z := Z.of_N (Byte.to_N b).

(** The conversion [byte(v)] of an integer: the low eight bits. *)
Definition byte_of_Z (z : Z) : byte := byte_of_N_total (Z.to_N (z mod 256)).

Abbreviation bytes := (list byte).

(** [[]byte(s)] for a string literal. *)
Definition bytes_of_string (s : string) : bytes := list_byte_of_string s.

(** [make([]byte, n)] followed by [copy(dst, src)]: the first [n] bytes of
    [src], padded with zero bytes when [src] is shorter. *)
Definition make_copy (n : nat) (src : bytes) : bytes :=
  take n (src ++ repeat "000"%byte n).

(** ** Errors, panics and outcomes *)

Inductive error : Type :=
  (* go.etcd.io/bbolt *)
  | ErrBucketExists
  | ErrBucketNameRequired
  | ErrKeyRequired
  | ErrKeyTooLarge
  | ErrValueTooLarge
  (* encoding/binary *)
  | ErrBufferTooSmall
  (* this package, one constructor per fmt.Errorf *)
  | ErrCreateBucket (name : bytes) (cause : error)
  | ErrReadingLogsize (cause : error)
  | ErrInconsistentDedupNil
  | ErrInconsistentSizeNil
  | ErrInitializingBuckets (cause : error)
  | ErrNoLogSize
  | ErrVtob (cause : error)
  | ErrWritingLeafIndex (idx : Z)
  | ErrBtov (cause : error)
  | ErrReadingFrom (cause : error)
  | ErrInputLength (l : nat)
  | ErrEncodeIdx (cause : error)
  | ErrEncodeTimestamp (cause : error)
  | ErrDecodeIdx (cause : error)
  | ErrDecodeTimestamp (cause : error).

Inductive panic : Type :=
  | NilPointerDereference
  | IndexOutOfRange.

Inductive outcome (A : Type) : Type :=
  | Ok (a : A)
  | Err (e : error)
  | Panic (p : panic).
Arguments Ok {A} a.
Arguments Err {A} e.
Arguments Panic {A} p.



(** ** encoding/binary, big endian, for uint64 *)

Module binary.

(** [binary.BigEndian.AppendUint64(b, v)]. *)
Definition AppendUint64 (b : bytes) (v : Z) : bytes :=
  b ++ [ byte_of_Z (Z.shiftr v 56); byte_of_Z (Z.shiftr v 48);
         byte_of_Z (Z.shiftr v 40); byte_of_Z (Z.shiftr v 32);
         byte_of_Z (Z.shiftr v 24); byte_of_Z (Z.shiftr v 16);
         byte_of_Z (Z.shiftr v 8);  byte_of_Z v ].

(** [binary.BigEndian.Uint64(b)]: reads [b[0..7]], panics when [b] has
    fewer than eight bytes. *)
Definition Uint64 (b : bytes) : outcome Z :=
  match b with
  | b0 :: b1 :: b2 :: b3 :: b4 :: b5 :: b6 :: b7 :: _ =>
      Ok (Z.lor (Z_of_byte b7)
         (Z.lor (Z.shiftl (Z_of_byte b6) 8)
         (Z.lor (Z.shiftl (Z_of_byte b5) 16)
         (Z.lor (Z.shiftl (Z_of_byte b4) 24)
         (Z.lor (Z.shiftl (Z_of_byte b3) 32)
         (Z.lor (Z.shiftl (Z_of_byte b2) 40)
         (Z.lor (Z.shiftl (Z_of_byte b1) 48)
                (Z.shiftl (Z_of_byte b0) 56))))))))
  | _ => Panic IndexOutOfRange
  end.

(** [binary.Append(b, binary.BigEndian, v)] for [v : uint64]; this
    instance has no failure path. *)
Definition Append (b : bytes) (v : Z) : outcome bytes :=
  Ok (AppendUint64 b v).

(** [binary.Decode(b, binary.BigEndian, &v)] for [v : uint64]: the number
    of bytes consumed and the value read. *)
Definition Decode (b : bytes) : outcome (nat * Z) :=
  if (length b <? 8)%nat then Err ErrBufferTooSmall
  else match Uint64 b with
       | Ok v => Ok (8%nat, v)
       | Err e => Err e
       | Panic p => Panic p
       end.

End binary.

(** ** The value codec *)

(** [itob] returns an 8-byte big endian representation of [idx]. *)
Definition itob (idx : Z) : bytes := binary.AppendUint64 [] idx.

(** [btoi] converts a byte array to a uint64. *)
Definition btoi (b : bytes) : outcome Z := binary.Uint64 b.

(** [vtob] concatenates an index and timestamp values into a byte array. *)
Definition vtob (idx timestamp : Z) : outcome bytes :=
  match binary.Append [] idx with
  | Err e => Err (ErrEncodeIdx e)
  | Panic p => Panic p
  | Ok b =>
      match binary.Append b timestamp with
      | Err e => Err (ErrEncodeTimestamp e)
      | Panic p => Panic p
      | Ok b => Ok b
      end
  end.

(** [btov] parses a byte array into an index and timestamp values. *)
Definition btov (b : bytes) : outcome (Z * Z) :=
  if negb (length b =? 16)%nat then Err (ErrInputLength (length b))
  else
    match binary.Decode b with
    | Err e => Err (ErrDecodeIdx e)
    | Panic p => Panic p
    | Ok (n, idx) =>
        match binary.Decode (drop n b) with
        | Err e => Err (ErrDecodeTimestamp e)
        | Panic p => Panic p
        | Ok (_, timestamp) => Ok (idx, timestamp)
        end
    end.

(** ** go.etcd.io/bbolt: buckets, transactions *)

Module bolt.

(** A bucket maps keys to values; a database maps bucket names to
    buckets.  Nested buckets are not modelled: this package never
    creates one. *)
Abbreviation Bucket := (gmap bytes bytes).
Abbreviation DB := (gmap bytes (gmap bytes bytes)).

Definition MaxKeySize : Z := 32768.
Definition MaxValueSize : Z := 2 ^ 31 - 2.

(** A transaction body: reads and writes the database, returns a value,
    an error, or panics. *)
Definition Tx (A : Type) : Type := DB -> outcome (A * DB).

Definition ret {A : Type} (a : A) : Tx A := fun d => Ok (a, d).

Definition bind {A B : Type} (m : Tx A) (k : A -> Tx B) : Tx B :=
  fun d =>
    match m d with
    | Ok (a, d') => k a d'
    | Err e => Err e
    | Panic p => Panic p
    end.

Definition fail {A : Type} (e : error) : Tx A := fun _ => Err e.

(** [lift o]: a computation that does not touch the database. *)
Definition lift {A : Type} (o : outcome A) : Tx A :=
  fun d =>
    match o with
    | Ok a => Ok (a, d)
    | Err e => Err e
    | Panic p => Panic p
    end.

(** [if err != nil { return fmt.Errorf(..., err) }] around a call. *)
Definition wrap_err {A : Type} (f : error -> error) (m : Tx A) : Tx A :=
  fun d =>
    match m d with
    | Ok r => Ok r
    | Err e => Err (f e)
    | Panic p => Panic p
    end.

(** A [*bolt.Bucket] is the name of a bucket of the transaction, or
    [None] for the nil pointer. *)
Abbreviation handle := (option bytes).

(** [tx.Bucket(name)]: nil when the bucket does not exist. *)
Definition Tx_Bucket (name : bytes) : Tx handle :=
  fun d =>
    match d !! name with
    | Some _ => Ok (Some name, d)
    | None => Ok (None, d)
    end.

(** [tx.CreateBucket(name)]. *)
Definition Tx_CreateBucket (name : bytes) : Tx handle :=
  fun d =>
    if (length name =? 0)%nat then Err ErrBucketNameRequired
    else match d !! name with
         | Some _ => Err ErrBucketExists
         | None => Ok (Some name, <[name := ∅]> d)
         end.

(** [b.Get(key)]: nil when the key is absent; a nil receiver panics. *)
Definition Bucket_Get (b : handle) (key : bytes) : Tx (option bytes) :=
  fun d =>
    match b with
    | None => Panic NilPointerDereference
    | Some name =>
        match d !! name with
        | Some m => Ok (m !! key, d)
        | None => Panic NilPointerDereference
        end
    end.

(** [b.Put(key, value)]: the key must be non-empty and at most
    [MaxKeySize] bytes, the value at most [MaxValueSize] bytes. *)
Definition Bucket_Put (b : handle) (key value : bytes) : Tx unit :=
  fun d =>
    match b with
    | None => Panic NilPointerDereference
    | Some name =>
        match d !! name with
        | None => Panic NilPointerDereference
        | Some m =>
            if (length key =? 0)%nat then Err ErrKeyRequired
            else if Z.of_nat (length key) >? MaxKeySize then Err ErrKeyTooLarge
            else if Z.of_nat (length value) >? MaxValueSize then Err ErrValueTooLarge
            else Ok (tt, <[name := <[key := value]> m]> d)
        end
    end.

(** [db.Update(fn)]: the writes of [fn] are committed when it returns
    nil and rolled back when it returns an error or panics. *)
Definition Update (d : DB) (fn : Tx unit) : DB * outcome unit :=
  match fn d with
  | Ok (_, d') => (d', Ok tt)
  | Err e => (d, Err e)
  | Panic p => (d, Panic p)
  end.

(** [db.View(fn)]: a read-only transaction; the value is what the
    closure leaves in the variables it captured. *)
Definition View {A : Type} (d : DB) (fn : Tx A) : outcome A :=
  match fn d with
  | Ok (a, _) => Ok a
  | Err e => Err e
  | Panic p => Panic p
  end.

End bolt.

Notation "x <- m ;; k" := (bolt.bind m (fun x => k))
  (at level 100, m at level 99, k at level 200, right associativity).
Notation "m ;;; k" := (bolt.bind m (fun _ => k))
  (at level 100, k at level 200, right associativity).

(** ** modules/dedup: the records exchanged with the store *)

Module dedup.

Record SCTDedupInfo : Type := { Idx : Z; Timestamp : Z }.

Record LeafDedupInfo : Type :=
  { LeafID : bytes; SCT :> SCTDedupInfo }.

End dedup.
Import dedup.

(** ** The storage *)

Definition dedupBucket : bytes := bytes_of_string "leafIdx".
Definition sizeBucket : bytes := bytes_of_string "logSize".
Definition sizeKey : bytes := bytes_of_string "size".

Record Storage : Type := { db : bolt.DB }.

(** The body of the transaction of [NewStorage]. *)
Definition NewStorage_tx : bolt.Tx unit :=
  dedupB <- bolt.Tx_Bucket dedupBucket ;;
  sizeB <- bolt.Tx_Bucket sizeBucket ;;
  match dedupB, sizeB with
  | None, None =>
      _ <- bolt.wrap_err (ErrCreateBucket dedupBucket)
             (bolt.Tx_CreateBucket dedupBucket) ;;
      sb <- bolt.wrap_err (ErrCreateBucket sizeBucket)
              (bolt.Tx_CreateBucket sizeBucket) ;;
      bolt.wrap_err ErrReadingLogsize (bolt.Bucket_Put sb sizeKey (itob 0))
  | None, Some _ => bolt.fail ErrInconsistentDedupNil
  | Some _, None => bolt.fail ErrInconsistentSizeNil
  | Some _, Some _ => bolt.ret tt
  end.

(** [NewStorage(path)], given the database that [bolt.Open(path)] finds at
    [path] (the empty database when the file is new). *)
Definition NewStorage (d : bolt.DB) : outcome Storage :=
  match bolt.Update d NewStorage_tx with
  | (d', Ok _) => Ok {| db := d' |}
  | (_, Err e) => Err (ErrInitializingBuckets e)
  | (_, Panic p) => Panic p
  end.

(** The condition [len(old) == 16 && btoi(old[:8]) <= ldi.Idx] of [Add],
    with the short-circuit of [&&]; [old] is [None] for a nil slice, whose
    length is 0. *)
Definition old_wins (old : option bytes) (idx : Z) : bolt.Tx bool :=
  match old with
  | Some old =>
      if (length old =? 16)%nat then
        oldIdx <- bolt.lift (btoi (take 8 old)) ;;
        bolt.ret (oldIdx <=? idx)
      else bolt.ret false
  | None => bolt.ret false
  end.

(** The body of the transaction that [Add] runs for one record. *)
Definition Add_tx (ldi : LeafDedupInfo) : bolt.Tx unit :=
  db <- bolt.Tx_Bucket dedupBucket ;;
  sb <- bolt.Tx_Bucket sizeBucket ;;
  sizeB <- bolt.Bucket_Get sb sizeKey ;;
  match sizeB with
  | None => bolt.fail ErrNoLogSize
  | Some sizeB =>
      size <- bolt.lift (btoi sizeB) ;;
      vB <- bolt.wrap_err ErrVtob (bolt.lift (vtob (Idx ldi) (Timestamp ldi))) ;;
      old <- bolt.Bucket_Get db (LeafID ldi) ;;
      keep <- old_wins old (Idx ldi) ;;
      (if keep then bolt.ret tt
       else bolt.Bucket_Put db (LeafID ldi) vB) ;;;
      if size =? Idx ldi
      then bolt.Bucket_Put sb sizeKey (itob (wrap64 (size + 1)))
      else bolt.ret tt
  end.

(** [Add] inserts entries in the dedup bucket and updates the size bucket
    if need be: one transaction per record, stopping at the first failure.
    The store after the call is returned with the outcome, since the
    records before a failure stay committed.  (The context argument is
    unused by the code and left out.) *)
Fixpoint Add (s : Storage) (ldis : list LeafDedupInfo)
  : Storage * outcome unit :=
  match ldis with
  | [] => (s, Ok tt)
  | ldi :: rest =>
      match bolt.Update (db s) (Add_tx ldi) with
      | (d', Ok _) => Add {| db := d' |} rest
      | (d', Err _) => ({| db := d' |}, Err (ErrWritingLeafIndex (Idx ldi)))
      | (d', Panic p) => ({| db := d' |}, Panic p)
      end
  end.

(** [Get] reads entries from the dedup bucket; the boolean is the "comma
    ok" flag. *)
Definition Get (s : Storage) (leafID : bytes) : outcome (SCTDedupInfo * bool) :=
  let zero := {| Idx := 0; Timestamp := 0 |} in
  match bolt.View (db s)
          (b <- bolt.Tx_Bucket dedupBucket ;;
           vv <- bolt.Bucket_Get b leafID ;;
           bolt.ret (match vv with
                     | Some vv => Some (make_copy (length vv) vv)
                     | None => None
                     end)) with
  | Panic p => Panic p
  | Err _ | Ok None => Ok (zero, false)
  | Ok (Some v) =>
      match btov v with
      | Err e => Err (ErrBtov e)
      | Panic p => Panic p
      | Ok (idx, t) => Ok ({| Idx := idx; Timestamp := t |}, true)
      end
  end.

(** [LogSize] reads the latest entry from the size bucket. *)
Definition LogSize (s : Storage) : outcome Z :=
  match bolt.View (db s)
          (b <- bolt.Tx_Bucket sizeBucket ;;
           v <- bolt.Bucket_Get b sizeKey ;;
           bolt.ret (match v with
                     | Some v => Some (make_copy 8 v)
                     | None => None
                     end)) with
  | Panic p => Panic p
  | Err e => Err (ErrReadingFrom e)
  | Ok None => Err ErrNoLogSize
  | Ok (Some size) => btoi size
  end.

(** A sequence of [Add] calls, one batch per call, each call made whatever
    the outcome of the previous ones; the outcomes are collected. *)
Fixpoint Adds (s : Storage) (calls : list (list LeafDedupInfo))
  : Storage * list (outcome unit) :=
  match calls with
  | [] => (s, [])
  | ldis :: rest =>
      let (s1, o) := Add s ldis in
      let (s2, os) := Adds s1 rest in
      (s2, o :: os)
  end.

(** The store that [NewStorage] creates where there was none. *)
Definition fresh : Storage :=
  match NewStorage ∅ with
  | Ok s => s
  | _ => {| db := ∅ |}
  end.

(** ** Observers and side conditions used in the statements *)

(** The raw value stored for [id] in the dedup bucket. *)
Definition dedup_entry (s : Storage) (id : bytes) : option bytes :=
  match db s !! dedupBucket with
  | Some m => m !! id
  | None => None
  end.

(** The raw value stored under "size" in the size bucket. *)
Definition size_entry (s : Storage) : option bytes :=
  match db s !! sizeBucket with
  | Some m => m !! sizeKey
  | None => None
  end.

(** Both buckets exist: what [NewStorage] guarantees on success. *)
Definition opened (s : Storage) : bool :=
  match db s !! dedupBucket, db s !! sizeBucket with
  | Some _, Some _ => true
  | _, _ => false
  end.

(** An opened store whose counter is present and at least 8 bytes long. *)
Definition ready (s : Storage) : bool :=
  opened s &&
  match size_entry s with
  | Some v => (8 <=? length v)%nat
  | None => false
  end.

(** A key that [Bucket.Put] accepts. *)
Definition valid_key (k : bytes) : bool :=
  negb (length k =? 0)%nat && negb (Z.of_nat (length k) >? bolt.MaxKeySize).

(** The fields of a record are [uint64] values. *)
Definition wf_info (r : SCTDedupInfo) : Prop :=
  is_uint64 (Idx r) /\ is_uint64 (Timestamp r).

(** A record that [Add] can store: its key is accepted and its fields are
    [uint64] values. *)
Definition acceptable (ldi : LeafDedupInfo) : Prop :=
  valid_key (LeafID ldi) = true /\ wf_info ldi.

(** ** The tie-break and the counter step in closed form *)

(** The tie-break of [Add] as a function of the value found under the key:
    the stored entry is kept when it is 16 bytes long and its index is at
    most the incoming one. *)
Definition keeps_old (old : option bytes) (idx : Z) : bool :=
  match old with
  | Some old =>
      (length old =? 16)%nat &&
      match btoi (take 8 old) with
      | Ok oldIdx => oldIdx <=? idx
      | _ => false
      end
  | None => false
  end.

(** The database after the counter step of the transaction, [sm] being the
    size bucket and [size] the counter read at its start. *)
Definition advance (sm : gmap bytes bytes) (size idx : Z) (d0 : bolt.DB)
  : bolt.DB :=
  if size =? idx
  then <[sizeBucket := <[sizeKey := itob (wrap64 (size + 1))]> sm]> d0
  else d0.

(** ** An abstract view of a ready store

    What the operations depend on: the content of the dedup bucket and the
    value of the counter.  [abstracts s a] relates a store to its view;
    [step] and [run] are what one transaction and one [Add] call do to the
    view, proved below to agree with the code. *)

Record view : Type := { entries : gmap bytes bytes; counter : Z }.

(** [s] has both buckets, its dedup bucket is [entries a] and its counter
    decodes to [counter a]. *)
Definition abstracts (s : Storage) (a : view) : Prop :=
  db s !! dedupBucket = Some (entries a) /\
  exists sm szb,
    db s !! sizeBucket = Some sm /\ sm !! sizeKey = Some szb /\
    btoi szb = Ok (counter a).

(** The counter after a committed transaction for a record of index
    [idx]. *)
Definition bump (size idx : Z) : Z :=
  if size =? idx then wrap64 (size + 1) else size.

(** One transaction on the view; the boolean tells whether it committed. *)
Definition step (a : view) (ldi : LeafDedupInfo) : view * bool :=
  if keeps_old (entries a !! LeafID ldi) (Idx ldi) then
    ({| entries := entries a; counter := bump (counter a) (Idx ldi) |}, true)
  else if valid_key (LeafID ldi) then
    ({| entries := <[LeafID ldi := itob (Idx ldi) ++ itob (Timestamp ldi)]>
                     (entries a);
        counter := bump (counter a) (Idx ldi) |}, true)
  else (a, false).

(** One [Add] call on the view: the index of the record that failed, if
    any. *)
Fixpoint run (a : view) (ldis : list LeafDedupInfo) : view * option Z :=
  match ldis with
  | [] => (a, None)
  | ldi :: rest =>
      match step a ldi with
      | (a', true) => run a' rest
      | (a', false) => (a', Some (Idx ldi))
      end
  end.

(** The error that [Add] returns for a failed record. *)
Definition outcome_of (r : option Z) : outcome unit :=
  match r with
  | None => Ok tt
  | Some idx => Err (ErrWritingLeafIndex idx)
  end.

(** ** What the specification speaks of: layout, minimum, tie-break *)

(** Big-endian layout as the specification words it: byte [k] of the eight
    holds the digit of weight [256^(7-k)]. *)
Definition big_endian8 (v : Z) : list Z :=
  map (fun k => (v / 256 ^ (7 - k)) mod 256) [0; 1; 2; 3; 4; 5; 6; 7].

(** The encoding of a record's index and timestamp. *)
Definition encode (c : SCTDedupInfo) : bytes :=
  itob (Idx c) ++ itob (Timestamp c).

(** The tie-break on decoded records: the stored one stays unless the
    incoming index is strictly smaller. *)
Definition merge (cur : option SCTDedupInfo) (x : SCTDedupInfo)
  : option SCTDedupInfo :=
  match cur with
  | None => Some x
  | Some c => if Idx c <=? Idx x then Some c else Some x
  end.

(** The decoded entry, when there is one, has [uint64] fields. *)
Definition wf_opt (cur : option SCTDedupInfo) : Prop :=
  match cur with Some c => wf_info c | None => True end.


(** ** Stores and records used as examples *)

(** The record [(id, idx, ts)]. *)
Definition mkLeaf (id : bytes) (idx ts : Z) : LeafDedupInfo :=
  {| LeafID := id; SCT := {| Idx := idx; Timestamp := ts |} |}.

(** A store whose entry for "k" is [v]. *)
Definition store_with_entry (k v : bytes) : Storage :=
  {| db := <[dedupBucket := {[ k := v ]}]> (db fresh) |}.

(** An opened store with two empty buckets. *)
Definition store_without_size : Storage :=
  {| db := <[sizeBucket := ∅]> (<[dedupBucket := ∅]> ∅) |}.

(** A store that [NewStorage] opens, whose counter holds the largest
    uint64. *)
Definition store_at_max : Storage :=
  {| db := <[sizeBucket := {[ sizeKey := itob uint64_max ]}]>
             (<[dedupBucket := ∅]> ∅) |}.

(** ** Further observers *)

(** Every value of the dedup bucket is 16 bytes long, as [Add] writes
    them. *)
Definition entries_well_sized (s : Storage) : Prop :=
  forall (id v : bytes), dedup_entry s id = Some v -> length v = 16%nat.

(** The index that [Get] reports for a leaf, when it finds one. *)
Definition stored_index (s : Storage) (id : bytes) : option Z :=
  match Get s id with
  | Ok (r, true) => Some (Idx r)
  | _ => None
  end.

(** A store whose counter value is the three bytes 1, 2, 3. *)
Definition store_with_short_size : Storage :=
  {| db := <[sizeBucket := {[ sizeKey := ["001"; "002"; "003"]%byte ]}]>
             (<[dedupBucket := ∅]> ∅) |}.

(** ** internal/scti: creating a log

    [NewLog] checks its arguments, then builds the checkpoint signer and
    the storage.  The signer, the storage constructor and the SCT builder
    are the caller's or another package's: they are parameters here, as are
    the types they exchange.  [klog.Exitf] ends the process. *)

Module scti.

(** The dynamic type of [signer.Public()]; the code tells
    [*ecdsa.PublicKey] from everything else. *)
Inductive PublicKey : Type :=
  | EcdsaPublicKey
  | OtherPublicKey (type_name : string).

(** A [crypto.Signer] that is not nil. *)
Record Signer : Type := { Public : PublicKey }.

Inductive NewLog_error : Type :=
  | ErrEmptyOrigin
  | ErrEmptySigner
  | ErrUnsupportedKeyType (keyType : PublicKey).

(** What a call of [NewLog] does: it returns a log, returns an error, or
    ends the process at one of the two [klog.Exitf]. *)
Inductive result (L E : Type) : Type :=
  | Returned (l : L)
  | Failed (e : NewLog_error)
  | ExitCpSigner (e : E)
  | ExitStorage (e : E).
Arguments Returned {L E} l.
Arguments Failed {L E} e.
Arguments ExitCpSigner {L E} e.
Arguments ExitStorage {L E} e.

Section NewLog.

Variables (Ctx Opts TimeSource CpSigner StorageT Leaf SCT E : Type).
Variable NewCpSigner : Signer -> string -> TimeSource -> sum E CpSigner.
Variable buildV1SCT : Signer -> Leaf -> sum E SCT.

Record log : Type :=
  { origin : string;
    signSCT : Leaf -> sum E SCT;
    chainValidationOpts : Opts;
    storage : StorageT }.

(** [NewLog] instantiates a new log instance; [signer] is [None] for a nil
    interface value. *)
Definition NewLog (ctx : Ctx) (origin_ : string) (signer : option Signer)
    (cvOpts : Opts) (cs : Ctx -> CpSigner -> sum E StorageT)
    (ts : TimeSource) : result log E :=
  if String.eqb origin_ "" then Failed ErrEmptyOrigin
  else
    match signer with
    | None => Failed ErrEmptySigner
    | Some sg =>
        match Public sg with
        | OtherPublicKey n => Failed (ErrUnsupportedKeyType (OtherPublicKey n))
        | EcdsaPublicKey =>
            match NewCpSigner sg origin_ ts with
            | inl e => ExitCpSigner e
            | inr cpSigner =>
                match cs ctx cpSigner with
                | inl e => ExitStorage e
                | inr st =>
                    Returned {| origin := origin_;
                                signSCT := buildV1SCT sg;
                                chainValidationOpts := cvOpts;
                                storage := st |}
                end
            end
        end
    end.

End NewLog.

End scti.

(** ** The codec: bytes and bits *)

Section Codec.

Lemma Z_of_byte_range (b : byte) : 0 <= Z_of_byte b < 256.
Proof.
  unfold Z_of_byte. pose proof (Byte.to_N_bounded b). lia.
Qed.

Lemma Z_of_byte_of_Z (z : Z) : Z_of_byte (byte_of_Z z) = z mod 256.
Proof.
  unfold Z_of_byte, byte_of_Z, byte_of_N_total.
  pose proof (Z.mod_pos_bound z 256 ltac:(lia)) as Hr.
  destruct (Byte.of_N (Z.to_N (z mod 256))) as [b|] eqn:E.
  - apply Byte.to_of_N in E. rewrite E. lia.
  - apply Byte.of_N_None_iff in E. lia.
Qed.

Lemma byte_of_Z_of_byte (b : byte) : byte_of_Z (Z_of_byte b) = b.
Proof.
  unfold byte_of_Z, byte_of_N_total.
  rewrite Z.mod_small by apply Z_of_byte_range.
  unfold Z_of_byte. rewrite N2Z.id, Byte.of_to_N. reflexivity.
Qed.

(** The byte written at shift [s] carries exactly bits [s .. s+7]. *)
Lemma shifted_byte_bit (v s n : Z) :
  0 <= s -> 0 <= n ->
  Z.testbit (Z.shiftl (Z_of_byte (byte_of_Z (Z.shiftr v s))) s) n
  = (s <=? n) && (n <? s + 8) && Z.testbit v n.
Proof.
  intros Hs Hn.
  rewrite Z.shiftl_spec, Z_of_byte_of_Z by lia.
  change 256 with (2 ^ 8).
  destruct (Z.leb_spec s n) as [Hle|Hlt]; simpl.
  - rewrite Z.testbit_mod_pow2 by lia.
    rewrite Z.shiftr_spec by lia.
    replace (n - s + s) with n by lia.
    destruct (Z.ltb_spec (n - s) 8), (Z.ltb_spec n (s + 8));
      try lia; reflexivity.
  - apply Z.testbit_neg_r. lia.
Qed.

Lemma uint64_high_bits (v n : Z) :
  is_uint64 v -> 64 <= n -> Z.testbit v n = false.
Proof.
  intros [H0 H1] Hn.
  destruct (Z.eq_dec v 0) as [->|Hne]; [apply Z.bits_0|].
  apply Z.bits_above_log2; [lia|].
  assert (Z.log2 v < 64) by (apply Z.log2_lt_pow2; lia). lia.
Qed.

(** Reading back the eight bytes that [AppendUint64] wrote. *)
Lemma Uint64_AppendUint64 (v : Z) (rest : bytes) :
  is_uint64 v ->
  binary.Uint64 (binary.AppendUint64 [] v ++ rest) = Ok v.
Proof.
  intros Hv. unfold binary.AppendUint64, binary.Uint64. simpl.
  f_equal. apply Z.bits_inj'. intros n Hn.
  rewrite <- (Z.shiftl_0_r (Z_of_byte (byte_of_Z v))).
  rewrite <- (Z.shiftr_0_r v) at 1.
  rewrite !Z.lor_spec, !shifted_byte_bit by lia.
  destruct (Z.testbit v n) eqn:Hb.
  - assert (n < 64).
    { destruct (Z.lt_ge_cases n 64) as [|Hge]; [assumption|].
      rewrite (uint64_high_bits v n Hv Hge) in Hb. discriminate. }
    rewrite !andb_true_r.
    repeat match goal with
           | |- context [ ?a <=? ?b ] =>
               destruct (Z.leb_spec a b); try lia
           | |- context [ ?a <? ?b ] =>
               destruct (Z.ltb_spec a b); try lia
           end; reflexivity.
  - rewrite !andb_false_r. reflexivity.
Qed.

Lemma length_AppendUint64 (b : bytes) (v : Z) :
  length (binary.AppendUint64 b v) = (length b + 8)%nat.
Proof. unfold binary.AppendUint64. rewrite length_app. reflexivity. Qed.

Lemma length_itob (v : Z) : length (itob v) = 8%nat.
Proof. reflexivity. Qed.

Lemma btoi_itob (v : Z) : is_uint64 v -> btoi (itob v) = Ok v.
Proof.
  intros Hv. unfold btoi, itob.
  rewrite <- (app_nil_r (binary.AppendUint64 [] v)).
  now apply Uint64_AppendUint64.
Qed.

Lemma vtob_eq (idx ts : Z) : vtob idx ts = Ok (itob idx ++ itob ts).
Proof. reflexivity. Qed.

Lemma length_vtob (idx ts : Z) (b : bytes) :
  vtob idx ts = Ok b -> length b = 16%nat.
Proof. rewrite vtob_eq. intros [= <-]. reflexivity. Qed.

Lemma btoi_take8_encoded (idx ts : Z) :
  is_uint64 idx -> btoi (take 8 (itob idx ++ itob ts)) = Ok idx.
Proof.
  intros Hv. rewrite take_app_length' by reflexivity. now apply btoi_itob.
Qed.

Lemma btov_encoded (idx ts : Z) :
  is_uint64 idx -> is_uint64 ts ->
  btov (itob idx ++ itob ts) = Ok (idx, ts).
Proof.
  intros Hi Ht. unfold btov.
  change (length (itob idx ++ itob ts)) with 16%nat. simpl negb. cbv iota.
  unfold binary.Decode.
  change (length (itob idx ++ itob ts) <? 8)%nat with false. cbv iota.
  unfold itob at 1. rewrite Uint64_AppendUint64 by assumption.
  rewrite drop_app_length' by reflexivity.
  change (length (itob ts) <? 8)%nat with false. cbv iota.
  fold (btoi (itob ts)). rewrite btoi_itob by assumption. reflexivity.
Qed.

(** [make_copy] of a full-length source is the source. *)
Lemma make_copy_exact (v : bytes) : make_copy (length v) v = v.
Proof. unfold make_copy. now rewrite take_app_length. Qed.

(** Only the first eight bytes matter to [btoi]. *)
Lemma btoi_make_copy (v : bytes) :
  (8 <= length v)%nat -> btoi (make_copy 8 v) = btoi v.
Proof.
  intros Hl. unfold make_copy, btoi, binary.Uint64.
  do 8 (destruct v as [|? v]; [simpl in Hl; lia|]). reflexivity.
Qed.

End Codec.

(** ** One record, one transaction *)

Section Transaction.

Lemma buckets_distinct : dedupBucket <> sizeBucket.
Proof. discriminate. Qed.

Lemma btoi_ok_of_length (b : bytes) :
  (8 <= length b)%nat -> exists v, btoi b = Ok v.
Proof.
  intros Hl. do 8 (destruct b as [|? b]; [simpl in Hl; lia|]).
  eexists. reflexivity.
Qed.

Lemma btoi_ok_length (b : bytes) (v : Z) :
  btoi b = Ok v -> (8 <= length b)%nat.
Proof.
  intros H. do 8 (destruct b as [|? b]; [discriminate H|]). simpl. lia.
Qed.

Lemma valid_key_Put (d : bolt.DB) (name key value : bytes) (m : gmap bytes bytes) :
  d !! name = Some m -> valid_key key = true -> length value = 16%nat ->
  bolt.Bucket_Put (Some name) key value d
  = Ok (tt, <[name := <[key := value]> m]> d).
Proof.
  intros Hm Hk Hv. unfold bolt.Bucket_Put. rewrite Hm.
  unfold valid_key in Hk. apply andb_true_iff in Hk as [Hk1 Hk2].
  apply negb_true_iff in Hk1, Hk2. rewrite Hk1, Hk2, Hv. reflexivity.
Qed.

Lemma invalid_key_Put (d : bolt.DB) (name key value : bytes) (m : gmap bytes bytes) :
  d !! name = Some m -> valid_key key = false ->
  exists e, bolt.Bucket_Put (Some name) key value d = Err e.
Proof.
  intros Hm Hk. unfold bolt.Bucket_Put. rewrite Hm.
  unfold valid_key in Hk.
  destruct (length key =? 0)%nat; [eauto|].
  destruct (Z.of_nat (length key) >? bolt.MaxKeySize); [eauto|discriminate].
Qed.

Lemma size_Put (d : bolt.DB) (value : bytes) (m : gmap bytes bytes) :
  d !! sizeBucket = Some m -> length value = 8%nat ->
  bolt.Bucket_Put (Some sizeBucket) sizeKey value d
  = Ok (tt, <[sizeBucket := <[sizeKey := value]> m]> d).
Proof. intros Hm Hv. unfold bolt.Bucket_Put. now rewrite Hm, Hv. Qed.

(** The tie-break computed inside the transaction is [keeps_old]. *)
Lemma old_wins_run (old : option bytes) (idx : Z) (d : bolt.DB) :
  old_wins old idx d = Ok (keeps_old old idx, d).
Proof.
  unfold old_wins, keeps_old, bolt.bind, bolt.ret, bolt.lift.
  destruct old as [old|]; [|reflexivity].
  destruct (length old =? 16)%nat eqn:E; [|reflexivity].
  apply Nat.eqb_eq in E.
  destruct (btoi_ok_of_length (take 8 old)) as [v Hv].
  { rewrite length_take. lia. }
  rewrite Hv. reflexivity.
Qed.

Variables (d : bolt.DB) (dm sm : gmap bytes bytes) (szb : bytes) (size : Z).
Hypothesis Hdm : d !! dedupBucket = Some dm.
Hypothesis Hsm : d !! sizeBucket = Some sm.
Hypothesis Hszb : sm !! sizeKey = Some szb.
Hypothesis Hsize : btoi szb = Ok size.

(** Runs the body of [Add_tx] up to the tie-break, whose value is given
    by [Hk]. *)
Ltac run_to_tie_break Hk :=
  unfold bolt.Update, Add_tx, bolt.bind at 1 2 3;
  unfold bolt.Tx_Bucket; rewrite Hdm, Hsm;
  unfold bolt.Bucket_Get at 1; rewrite Hsm, Hszb;
  unfold bolt.bind at 1; unfold bolt.lift at 1; rewrite Hsize;
  unfold bolt.bind at 1; unfold bolt.wrap_err, bolt.lift at 1;
  rewrite vtob_eq;
  unfold bolt.bind at 1; unfold bolt.Bucket_Get at 1; rewrite Hdm;
  unfold bolt.bind at 1; rewrite old_wins_run, Hk.

(** The record loses the tie-break: only the counter may move. *)
Lemma Add_tx_keep (ldi : LeafDedupInfo) :
  keeps_old (dm !! LeafID ldi) (Idx ldi) = true ->
  bolt.Update d (Add_tx ldi) = (advance sm size (Idx ldi) d, Ok tt).
Proof.
  intros Hk. run_to_tie_break Hk.
  unfold bolt.bind, bolt.ret, advance.
  destruct (size =? Idx ldi); [|reflexivity].
  rewrite (size_Put d _ sm Hsm) by reflexivity. reflexivity.
Qed.

(** The record wins and its key is accepted: the entry is written, then
    the counter may move. *)
Lemma Add_tx_write (ldi : LeafDedupInfo) :
  keeps_old (dm !! LeafID ldi) (Idx ldi) = false ->
  valid_key (LeafID ldi) = true ->
  bolt.Update d (Add_tx ldi)
  = (advance sm size (Idx ldi)
       (<[dedupBucket :=
            <[LeafID ldi := itob (Idx ldi) ++ itob (Timestamp ldi)]> dm]> d),
     Ok tt).
Proof.
  intros Hk Hv. run_to_tie_break Hk.
  unfold bolt.bind at 1.
  rewrite (valid_key_Put d _ _ _ dm Hdm Hv) by reflexivity.
  unfold bolt.ret, advance.
  destruct (size =? Idx ldi); [|reflexivity].
  erewrite size_Put; [reflexivity| |reflexivity].
  rewrite lookup_insert_ne by apply buckets_distinct. exact Hsm.
Qed.

(** The record wins but its key is refused: the transaction is rolled
    back. *)
Lemma Add_tx_refused (ldi : LeafDedupInfo) :
  keeps_old (dm !! LeafID ldi) (Idx ldi) = false ->
  valid_key (LeafID ldi) = false ->
  exists e, bolt.Update d (Add_tx ldi) = (d, Err e).
Proof.
  intros Hk Hv. run_to_tie_break Hk.
  unfold bolt.bind at 1.
  destruct (invalid_key_Put d dedupBucket (LeafID ldi)
              (itob (Idx ldi) ++ itob (Timestamp ldi)) dm Hdm Hv) as [e He].
  rewrite He. eauto.
Qed.

End Transaction.



Section Simulation.

Lemma wrap64_range (z : Z) : is_uint64 (wrap64 z).
Proof. unfold is_uint64, wrap64. apply Z.mod_pos_bound. lia. Qed.

Lemma ready_abstracts (s : Storage) :
  ready s = true -> exists a, abstracts s a.
Proof.
  unfold ready, opened, size_entry, abstracts. intros H.
  destruct (db s !! dedupBucket) as [dm|]; [|discriminate].
  destruct (db s !! sizeBucket) as [sm|]; [|discriminate].
  destruct (sm !! sizeKey) as [szb|] eqn:E; [|discriminate].
  rewrite andb_true_l in H. apply Nat.leb_le in H.
  destruct (btoi_ok_of_length szb H) as [v Hv].
  exists {| entries := dm; counter := v |}. simpl. eauto 6.
Qed.

Lemma abstracts_ready (s : Storage) (a : view) :
  abstracts s a -> ready s = true.
Proof.
  intros [Hd (sm & szb & Hs & Hk & Hv)].
  unfold ready, opened, size_entry. rewrite Hd, Hs, Hk, andb_true_l.
  apply Nat.leb_le. eapply btoi_ok_length; eassumption.
Qed.

Lemma abstracts_dedup_entry (s : Storage) (a : view) (id : bytes) :
  abstracts s a -> dedup_entry s id = entries a !! id.
Proof. intros [Hd _]. unfold dedup_entry. now rewrite Hd. Qed.

Lemma abstracts_advance (d : bolt.DB) (es sm : gmap bytes bytes)
      (szb : bytes) (size idx : Z) :
  d !! dedupBucket = Some es -> btoi szb = Ok size ->
  (d !! sizeBucket = Some sm /\ sm !! sizeKey = Some szb) ->
  abstracts {| db := advance sm size idx d |}
            {| entries := es; counter := bump size idx |}.
Proof.
  intros Hd Hv [Hs Hk]. unfold abstracts, advance, bump; simpl.
  destruct (size =? idx).
  - split.
    + rewrite lookup_insert_ne by (intros E; symmetry in E; revert E;
                                   apply buckets_distinct).
      exact Hd.
    + eexists _, _. rewrite lookup_insert_eq. split; [reflexivity|].
      rewrite lookup_insert_eq. split; [reflexivity|].
      apply btoi_itob, wrap64_range.
  - eauto 6.
Qed.

(** One transaction of the code and one [step] of the view agree. *)
Lemma Update_Add_tx_step (s : Storage) (a : view) (ldi : LeafDedupInfo) :
  abstracts s a ->
  exists d' o,
    bolt.Update (db s) (Add_tx ldi) = (d', o) /\
    abstracts {| db := d' |} (fst (step a ldi)) /\
    match o with
    | Ok _ => snd (step a ldi) = true
    | Err _ => snd (step a ldi) = false
    | Panic _ => False
    end.
Proof.
  intros [Hd (sm & szb & Hs & Hk & Hv)]. unfold step.
  destruct (keeps_old (entries a !! LeafID ldi) (Idx ldi)) eqn:Ek.
  - eexists _, _. split.
    + eapply Add_tx_keep; eassumption.
    + simpl. split; [|reflexivity].
      eapply abstracts_advance; eauto.
  - destruct (valid_key (LeafID ldi)) eqn:Ev.
    + eexists _, _. split.
      * eapply Add_tx_write; eassumption.
      * simpl. split; [|reflexivity].
        eapply abstracts_advance; [apply lookup_insert_eq|eassumption|].
        rewrite lookup_insert_ne by apply buckets_distinct. eauto.
    + destruct (Add_tx_refused (db s) (entries a) sm szb (counter a)
                  Hd Hs Hk Hv ldi Ek Ev) as [e He].
      eexists _, _. split; [exact He|]. simpl. split; [|reflexivity].
      destruct s. unfold abstracts. simpl in *. eauto 6.
Qed.

(** An [Add] call of the code and a [run] of the view agree. *)
Lemma Add_run (ldis : list LeafDedupInfo) :
  forall (s : Storage) (a : view),
    abstracts s a ->
    abstracts (fst (Add s ldis)) (fst (run a ldis)) /\
    snd (Add s ldis) = outcome_of (snd (run a ldis)).
Proof.
  induction ldis as [|ldi rest IH]; intros s a Habs; simpl.
  - split; [assumption|reflexivity].
  - destruct (Update_Add_tx_step s a ldi Habs) as (d' & o & Hu & Habs' & Ho).
    rewrite Hu. destruct (step a ldi) as [a' ok]. simpl in *.
    destruct o as [[]|e|p]; [| |contradiction]; subst ok.
    + apply IH. assumption.
    + simpl. split; [assumption|reflexivity].
Qed.

(** [LogSize] reads the counter of the view. *)
Lemma LogSize_abstracts (s : Storage) (a : view) :
  abstracts s a -> LogSize s = Ok (counter a).
Proof.
  intros [Hd (sm & szb & Hs & Hk & Hv)].
  unfold LogSize, bolt.View, bolt.bind, bolt.Tx_Bucket, bolt.Bucket_Get,
    bolt.ret.
  rewrite Hs, Hs, Hk. rewrite btoi_make_copy; [assumption|].
  eapply btoi_ok_length; eassumption.
Qed.

(** [Get] decodes the entry of the view. *)
Lemma Get_abstracts (s : Storage) (a : view) (id : bytes) :
  abstracts s a ->
  Get s id =
    match entries a !! id with
    | None => Ok ({| Idx := 0; Timestamp := 0 |}, false)
    | Some v =>
        match btov v with
        | Ok (idx, t) => Ok ({| Idx := idx; Timestamp := t |}, true)
        | Err e => Err (ErrBtov e)
        | Panic p => Panic p
        end
    end.
Proof.
  intros [Hd _].
  unfold Get, bolt.View, bolt.bind, bolt.Tx_Bucket, bolt.Bucket_Get,
    bolt.ret.
  rewrite Hd, Hd. destruct (entries a !! id) as [v|]; [|reflexivity].
  rewrite make_copy_exact. destruct (btov v) as [[i t]|e|p]; reflexivity.
Qed.

End Simulation.

(** ** The specification's properties *)

(** *** The codec *)

Lemma itob_big_endian (v : Z) : map Z_of_byte (itob v) = big_endian8 v.
Proof.
  unfold itob, binary.AppendUint64, big_endian8. simpl app. cbn [map].
  rewrite !Z_of_byte_of_Z, !Z.shiftr_div_pow2 by lia.
  change (7 - 7) with 0. rewrite Z.pow_0_r, Z.div_1_r. reflexivity.
Qed.

(** C6. The value codec round-trips: for every pair of uint64 values
    [(idx, ts)], 0 and the maximum included, [vtob] succeeds with 16 bytes,
    the big-endian index followed by the big-endian timestamp, and [btov]
    of these bytes is [(idx, ts)] again. *)
Theorem vtob_btov_round_trip (idx ts : Z) :
  is_uint64 idx -> is_uint64 ts ->
  exists b,
    vtob idx ts = Ok b /\
    length b = 16%nat /\
    map Z_of_byte b = big_endian8 idx ++ big_endian8 ts /\
    btov b = Ok (idx, ts).
Proof.
  intros Hi Ht. exists (itob idx ++ itob ts).
  split; [apply vtob_eq|]. split; [reflexivity|]. split.
  - rewrite map_app, !itob_big_endian. reflexivity.
  - now apply btov_encoded.
Qed.

Lemma vtob_btov_round_trip_witness :
  is_uint64 0 /\ is_uint64 uint64_max /\
  exists b,
    vtob 0 uint64_max = Ok b /\
    length b = 16%nat /\
    map Z_of_byte b = big_endian8 0 ++ big_endian8 uint64_max /\
    btov b = Ok (0, uint64_max).
Proof.
  assert (H0 : is_uint64 0) by (unfold is_uint64; lia).
  assert (H1 : is_uint64 uint64_max) by (unfold is_uint64, uint64_max; lia).
  split; [exact H0|]. split; [exact H1|].
  exact (vtob_btov_round_trip 0 uint64_max H0 H1).
Defined.

(** C7. A byte string whose length is not 16 is refused by [btov] with the
    length error (no panic, no truncation and no padding), and [Get]
    returns that error, wrapped, when the value stored under the key has
    such a length. *)
Theorem btov_rejects_other_lengths (b : bytes) :
  length b <> 16%nat ->
  btov b = Err (ErrInputLength (length b)) /\
  forall (s : Storage) (leafID : bytes),
    dedup_entry s leafID = Some b ->
    Get s leafID = Err (ErrBtov (ErrInputLength (length b))).
Proof.
  intros Hl.
  assert (Hb : btov b = Err (ErrInputLength (length b))).
  { unfold btov. apply Nat.eqb_neq in Hl. now rewrite Hl. }
  split; [exact Hb|].
  intros s leafID He. unfold dedup_entry in He.
  destruct (db s !! dedupBucket) as [m|] eqn:Hm; [|discriminate].
  unfold Get, bolt.View, bolt.bind, bolt.Tx_Bucket, bolt.Bucket_Get,
    bolt.ret.
  rewrite Hm, Hm, He, make_copy_exact, Hb. reflexivity.
Qed.

Lemma btov_rejects_other_lengths_witness :
  let b15 := repeat "001"%byte 15 in
  let b17 := repeat "001"%byte 17 in
  let k := bytes_of_string "k" in
  (btov b15 = Err (ErrInputLength 15) /\
   Get (store_with_entry k b15) k = Err (ErrBtov (ErrInputLength 15))) /\
  (btov b17 = Err (ErrInputLength 17) /\
   Get (store_with_entry k b17) k = Err (ErrBtov (ErrInputLength 17))).
Proof.
  intros b15 b17 k. split.
  - destruct (btov_rejects_other_lengths b15 ltac:(discriminate)) as [H1 H2].
    split; [exact H1|]. apply (H2 (store_with_entry k b15) k). reflexivity.
  - destruct (btov_rejects_other_lengths b17 ltac:(discriminate)) as [H1 H2].
    split; [exact H1|]. apply (H2 (store_with_entry k b17) k). reflexivity.
Defined.

(** *** Opening a store *)

(** C5. [NewStorage] splits on the existence of the two buckets: with
    neither, it creates both (the dedup bucket empty, the size bucket
    holding the counter 0) and [LogSize] of the new store is 0; with both,
    it returns the database as it found it; with exactly one, it fails with
    the inconsistency error and returns no store. *)
Theorem NewStorage_cases (d : bolt.DB) :
  match d !! dedupBucket, d !! sizeBucket with
  | None, None =>
      exists s,
        NewStorage d = Ok s /\
        db s = <[sizeBucket := {[ sizeKey := itob 0 ]}]>
                 (<[dedupBucket := ∅]> d) /\
        opened s = true /\
        LogSize s = Ok 0
  | Some _, Some _ => NewStorage d = Ok {| db := d |}
  | None, Some _ =>
      NewStorage d = Err (ErrInitializingBuckets ErrInconsistentDedupNil)
  | Some _, None =>
      NewStorage d = Err (ErrInitializingBuckets ErrInconsistentSizeNil)
  end.
Proof.
  destruct (d !! dedupBucket) as [dm|] eqn:Hd,
           (d !! sizeBucket) as [sm|] eqn:Hs.
  - unfold NewStorage, bolt.Update, NewStorage_tx, bolt.bind, bolt.Tx_Bucket.
    now rewrite Hd, Hs.
  - unfold NewStorage, bolt.Update, NewStorage_tx, bolt.bind, bolt.Tx_Bucket.
    now rewrite Hd, Hs.
  - unfold NewStorage, bolt.Update, NewStorage_tx, bolt.bind, bolt.Tx_Bucket.
    now rewrite Hd, Hs.
  - assert (Hs' : <[dedupBucket := ∅]> d !! sizeBucket = None).
    { rewrite lookup_insert_ne by apply buckets_distinct. exact Hs. }
    assert (Hrun : NewStorage d
                   = Ok {| db := <[sizeBucket := {[ sizeKey := itob 0 ]}]>
                                   (<[dedupBucket := ∅]> d) |}).
    { unfold NewStorage, bolt.Update, NewStorage_tx, bolt.bind,
        bolt.Tx_Bucket, bolt.wrap_err, bolt.Tx_CreateBucket.
      rewrite Hd, Hs. simpl. rewrite Hd, Hs'.
      unfold bolt.Bucket_Put. rewrite lookup_insert_eq. simpl.
      rewrite insert_insert_eq. reflexivity. }
    eexists. split; [exact Hrun|]. split; [reflexivity|].
    assert (Habs : abstracts
                     {| db := <[sizeBucket := {[ sizeKey := itob 0 ]}]>
                                (<[dedupBucket := ∅]> d) |}
                     {| entries := ∅; counter := 0 |}).
    { unfold abstracts; simpl. split.
      - rewrite lookup_insert_ne
          by (intros E; symmetry in E; revert E; apply buckets_distinct).
        apply lookup_insert_eq.
      - eexists _, _. rewrite lookup_insert_eq. split; [reflexivity|].
        rewrite lookup_singleton_eq. split; reflexivity. }
    split.
    + apply abstracts_ready in Habs. unfold ready in Habs.
      now apply andb_true_iff in Habs.
    + apply (LogSize_abstracts _ _ Habs).
Qed.

(** *** A missing counter *)

(** C9. On an opened store whose size bucket lacks the "size" key,
    [LogSize] returns an error and [Add] returns an error at the first
    record it processes, leaving the store as it was; the counter is not
    taken to be zero. *)
Theorem missing_size_key_is_an_error (s : Storage) :
  opened s = true -> size_entry s = None ->
  LogSize s = Err ErrNoLogSize /\
  forall (ldi : LeafDedupInfo) (rest : list LeafDedupInfo),
    Add s (ldi :: rest) = (s, Err (ErrWritingLeafIndex (Idx ldi))).
Proof.
  unfold opened, size_entry. intros Ho Hz.
  destruct (db s !! dedupBucket) as [dm|] eqn:Hd; [|discriminate].
  destruct (db s !! sizeBucket) as [sm|] eqn:Hs; [|discriminate].
  split.
  - unfold LogSize, bolt.View, bolt.bind, bolt.Tx_Bucket, bolt.Bucket_Get,
      bolt.ret.
    now rewrite Hs, Hs, Hz.
  - intros ldi rest. simpl.
    unfold bolt.Update, Add_tx, bolt.bind, bolt.Tx_Bucket, bolt.Bucket_Get,
      bolt.fail.
    rewrite Hd, Hs, Hs, Hz. destruct s. reflexivity.
Qed.

Lemma missing_size_key_is_an_error_witness :
  LogSize store_without_size = Err ErrNoLogSize /\
  forall (ldi : LeafDedupInfo) (rest : list LeafDedupInfo),
    Add store_without_size (ldi :: rest)
    = (store_without_size, Err (ErrWritingLeafIndex (Idx ldi))).
Proof.
  apply (missing_size_key_is_an_error store_without_size); reflexivity.
Defined.

(** *** Facts about the view *)

Section ViewFacts.

Lemma fresh_abstracts :
  abstracts fresh {| entries := ∅; counter := 0 |}.
Proof.
  unfold abstracts. simpl. split; [reflexivity|].
  exists {[ sizeKey := itob 0 ]}, (itob 0). repeat split; reflexivity.
Qed.

Lemma Z_of_byte_high_bits (b : byte) (n : Z) :
  8 <= n -> Z.testbit (Z_of_byte b) n = false.
Proof.
  intros Hn. rewrite <- (byte_of_Z_of_byte b), Z_of_byte_of_Z.
  change 256 with (2 ^ 8). apply Z.mod_pow2_bits_high. lia.
Qed.

Lemma btoi_range (b : bytes) (v : Z) : btoi b = Ok v -> is_uint64 v.
Proof.
  unfold btoi, binary.Uint64. intros H.
  do 8 (destruct b as [|? b]; [discriminate H|]). injection H as <-.
  match goal with |- is_uint64 ?x => set (w := x) end.
  assert (Hnn : 0 <= w).
  { subst w.
    repeat first [ apply Z.lor_nonneg; split | apply Z.shiftl_nonneg
                 | apply Z_of_byte_range ]. }
  split; [exact Hnn|].
  destruct (Z.eq_dec w 0) as [->|Hne]; [reflexivity|].
  apply Z.log2_lt_pow2; [lia|].
  destruct (Z.lt_ge_cases (Z.log2 w) 64) as [|Hge]; [assumption|exfalso].
  assert (Hbit : Z.testbit w (Z.log2 w) = true) by (apply Z.bit_log2; lia).
  subst w.
  rewrite !Z.lor_spec, !Z.shiftl_spec in Hbit by lia.
  rewrite !Z_of_byte_high_bits in Hbit by lia. discriminate.
Qed.

Lemma abstracts_counter_range (s : Storage) (a : view) :
  abstracts s a -> is_uint64 (counter a).
Proof.
  intros [_ (sm & szb & _ & _ & Hv)]. eapply btoi_range; eassumption.
Qed.

Lemma step_counter (a : view) (ldi : LeafDedupInfo) :
  counter (fst (step a ldi))
  = if snd (step a ldi) then bump (counter a) (Idx ldi) else counter a.
Proof.
  unfold step.
  destruct (keeps_old _ _); [reflexivity|].
  destruct (valid_key _); reflexivity.
Qed.

Lemma step_valid (a : view) (ldi : LeafDedupInfo) :
  valid_key (LeafID ldi) = true -> snd (step a ldi) = true.
Proof.
  intros Hv. unfold step. destruct (keeps_old _ _); [reflexivity|].
  now rewrite Hv.
Qed.

Lemma step_keeps (a : view) (ldi : LeafDedupInfo) :
  keeps_old (entries a !! LeafID ldi) (Idx ldi) = true ->
  step a ldi
  = ({| entries := entries a; counter := bump (counter a) (Idx ldi) |},
     true).
Proof. intros Hk. unfold step. now rewrite Hk. Qed.

Lemma step_entries_other (a : view) (ldi : LeafDedupInfo) (id : bytes) :
  LeafID ldi <> id -> entries (fst (step a ldi)) !! id = entries a !! id.
Proof.
  intros Hne. unfold step. destruct (keeps_old _ _); [reflexivity|].
  destruct (valid_key _); [|reflexivity]. simpl.
  now rewrite lookup_insert_ne.
Qed.

Lemma bump_bounds (size idx : Z) :
  is_uint64 size -> size < uint64_max ->
  size <= bump size idx <= size + 1.
Proof.
  unfold is_uint64, uint64_max, bump, wrap64. intros Hr Hlt.
  destruct (size =? idx); [|lia].
  rewrite Z.mod_small by lia. lia.
Qed.

(** A single-record call in terms of [step]. *)
Lemma Add_single (s : Storage) (a : view) (ldi : LeafDedupInfo) :
  abstracts s a ->
  abstracts (fst (Add s [ldi])) (fst (step a ldi)) /\
  snd (Add s [ldi])
  = if snd (step a ldi) then Ok tt else Err (ErrWritingLeafIndex (Idx ldi)).
Proof.
  intros Habs. destruct (Add_run [ldi] s a Habs) as [H1 H2].
  simpl run in H1, H2. destruct (step a ldi) as [a' [|]]; simpl in *; auto.
Qed.

Lemma run_counter_bounds (ldis : list LeafDedupInfo) :
  forall a : view,
    is_uint64 (counter a) ->
    counter a + Z.of_nat (length ldis) <= uint64_max ->
    counter a <= counter (fst (run a ldis))
              <= counter a + Z.of_nat (length ldis).
Proof.
  induction ldis as [|ldi rest IH]; intros a Hr Hb; simpl run.
  - simpl. lia.
  - rewrite length_cons, Nat2Z.inj_succ in Hb |- *.
    pose proof (step_counter a ldi) as Hc.
    destruct (step a ldi) as [a' ok]. simpl in Hc.
    destruct ok; simpl.
    + pose proof (bump_bounds (counter a) (Idx ldi) Hr ltac:(lia)) as Hbb.
      rewrite <- Hc in Hbb.
      assert (Hr' : is_uint64 (counter a')).
      { unfold is_uint64, uint64_max in *. lia. }
      specialize (IH a' Hr' ltac:(lia)). lia.
    + lia.
Qed.

Lemma run_entries_other (id : bytes) (ldis : list LeafDedupInfo) :
  forall a : view,
    Forall (fun ldi => LeafID ldi <> id) ldis ->
    entries (fst (run a ldis)) !! id = entries a !! id.
Proof.
  induction ldis as [|ldi rest IH]; intros a Hall; simpl run;
    [reflexivity|].
  apply Forall_cons in Hall as [Hne Hrest].
  pose proof (step_entries_other a ldi id Hne) as He.
  destruct (step a ldi) as [a' [|]]; simpl in *.
  - rewrite IH by assumption. exact He.
  - exact He.
Qed.

End ViewFacts.

(** *** The size counter *)

(** C2, as stated, fails: on a fresh store, after [Add] with index 0 and
    [Add] with index 2, [LogSize] is 1, and after a further [Add] with
    index 1 it is 2, not 3: the counter moves by one, to the index just
    added plus one, and index 2 is not looked at again. *)
Lemma gap_then_fill_is_not_three :
  let r0 := mkLeaf (bytes_of_string "a") 0 10 in
  let r2 := mkLeaf (bytes_of_string "b") 2 12 in
  let r1 := mkLeaf (bytes_of_string "c") 1 11 in
  let s1 := fst (Add fresh [r0]) in
  let s2 := fst (Add s1 [r2]) in
  let s3 := fst (Add s2 [r1]) in
  snd (Add fresh [r0]) = Ok tt /\ snd (Add s1 [r2]) = Ok tt /\
  LogSize s2 = Ok 1 /\
  snd (Add s2 [r1]) = Ok tt /\
  LogSize s3 = Ok 2 /\ LogSize s3 <> Ok 3.
Proof. vm_compute. repeat split; discriminate. Qed.

(** C2, amended. On a fresh store, for any leafIDs that the store accepts
    as keys and any timestamps, [Add] with index 0 and then [Add] with
    index 2 succeed and [LogSize] returns 1; a subsequent [Add] with index
    1 succeeds and [LogSize] returns 2. *)
Theorem gap_then_fill (r0 r2 r1 : LeafDedupInfo) :
  Idx r0 = 0 -> Idx r2 = 2 -> Idx r1 = 1 ->
  valid_key (LeafID r0) = true ->
  valid_key (LeafID r2) = true ->
  valid_key (LeafID r1) = true ->
  let s1 := fst (Add fresh [r0]) in
  let s2 := fst (Add s1 [r2]) in
  let s3 := fst (Add s2 [r1]) in
  snd (Add fresh [r0]) = Ok tt /\ snd (Add s1 [r2]) = Ok tt /\
  LogSize s2 = Ok 1 /\
  snd (Add s2 [r1]) = Ok tt /\
  LogSize s3 = Ok 2.
Proof.
  intros I0 I2 I1 V0 V2 V1 s1 s2 s3.
  set (a0 := {| entries := ∅; counter := 0 |}).
  destruct (Add_single fresh a0 r0 fresh_abstracts) as [A1 O1].
  pose proof (step_counter a0 r0) as C1.
  rewrite (step_valid a0 r0 V0) in O1, C1.
  set (a1 := fst (step a0 r0)) in *.
  destruct (Add_single s1 a1 r2 A1) as [A2 O2].
  pose proof (step_counter a1 r2) as C2.
  rewrite (step_valid a1 r2 V2) in O2, C2.
  set (a2 := fst (step a1 r2)) in *.
  destruct (Add_single s2 a2 r1 A2) as [A3 O3].
  pose proof (step_counter a2 r1) as C3.
  rewrite (step_valid a2 r1 V1) in O3, C3.
  rewrite I0 in C1. rewrite I2, C1 in C2. rewrite I1, C2 in C3.
  repeat split; try assumption.
  - rewrite (LogSize_abstracts s2 a2 A2), C2. reflexivity.
  - unfold s3. rewrite (LogSize_abstracts _ _ A3), C3. reflexivity.
Qed.

Lemma gap_then_fill_witness :
  let r0 := mkLeaf (bytes_of_string "a") 0 10 in
  let r2 := mkLeaf (bytes_of_string "a") 2 12 in
  let r1 := mkLeaf (bytes_of_string "c") 1 11 in
  let s1 := fst (Add fresh [r0]) in
  let s2 := fst (Add s1 [r2]) in
  let s3 := fst (Add s2 [r1]) in
  snd (Add fresh [r0]) = Ok tt /\ snd (Add s1 [r2]) = Ok tt /\
  LogSize s2 = Ok 1 /\
  snd (Add s2 [r1]) = Ok tt /\
  LogSize s3 = Ok 2.
Proof.
  intros r0 r2 r1.
  apply (gap_then_fill r0 r2 r1); reflexivity.
Defined.



Lemma NewStorage_reopen (s : Storage) :
  opened s = true -> NewStorage (db s) = Ok s.
Proof.
  unfold opened. intros Ho.
  destruct (db s !! dedupBucket) as [dm|] eqn:Hd; [|discriminate].
  destruct (db s !! sizeBucket) as [sm|] eqn:Hs; [|discriminate].
  unfold NewStorage, bolt.Update, NewStorage_tx, bolt.bind, bolt.Tx_Bucket.
  rewrite Hd, Hs. destruct s. reflexivity.
Qed.

(** C4, as stated, fails where uint64 arithmetic wraps: with the counter at
    2^64-1, a successful [Add] of a record with index 2^64-1 sets the
    counter to 0. *)
Lemma counter_wraps_at_max :
  let ldi := mkLeaf (bytes_of_string "a") uint64_max 0 in
  NewStorage (db store_at_max) = Ok store_at_max /\
  LogSize store_at_max = Ok uint64_max /\
  snd (Add store_at_max [ldi]) = Ok tt /\
  LogSize (fst (Add store_at_max [ldi])) = Ok 0 /\
  0 < uint64_max.
Proof. vm_compute. repeat split. Qed.

(** C4, amended. While the counter stays below 2^64-1 it is monotone: on a
    ready store whose counter reads [size], an [Add] of [n] records with
    [size + n <= 2^64-1] leaves a counter between [size] and [size + n],
    whatever the outcome of the call; in particular one record leaves it at
    [size] or at [size + 1].  Opening the store again returns it unchanged
    ([Get] and [LogSize] only read). *)
Theorem counter_monotone_below_max
        (s : Storage) (ldis : list LeafDedupInfo) (size : Z) :
  ready s = true -> LogSize s = Ok size ->
  size + Z.of_nat (length ldis) <= uint64_max ->
  NewStorage (db s) = Ok s /\
  (exists size',
      LogSize (fst (Add s ldis)) = Ok size' /\
      size <= size' <= size + Z.of_nat (length ldis)) /\
  (forall ldi : LeafDedupInfo,
      size < uint64_max ->
      LogSize (fst (Add s [ldi])) = Ok size \/
      LogSize (fst (Add s [ldi])) = Ok (size + 1)).
Proof.
  intros Hr Hsz Hb.
  destruct (ready_abstracts s Hr) as [a Habs].
  rewrite (LogSize_abstracts s a Habs) in Hsz. injection Hsz as Hsz.
  pose proof (abstracts_counter_range s a Habs) as Hrange.
  split; [|split].
  - apply NewStorage_reopen. unfold ready in Hr.
    now apply andb_true_iff in Hr.
  - destruct (Add_run ldis s a Habs) as [Habs' _].
    exists (counter (fst (run a ldis))).
    split; [apply (LogSize_abstracts _ _ Habs')|].
    rewrite <- Hsz. apply run_counter_bounds; [assumption|lia].
  - intros ldi Hlt.
    destruct (Add_run [ldi] s a Habs) as [Habs' _].
    rewrite (LogSize_abstracts _ _ Habs').
    pose proof (run_counter_bounds [ldi] a Hrange) as Hbb.
    simpl length in Hbb. specialize (Hbb ltac:(lia)).
    rewrite Hsz in Hbb.
    destruct (Z.eq_dec (counter (fst (run a [ldi]))) size) as [->|Hne].
    + now left.
    + right. f_equal. lia.
Qed.

Lemma counter_monotone_below_max_witness :
  let s := fst (Add fresh [mkLeaf (bytes_of_string "a") 0 10]) in
  let ldis := [mkLeaf (bytes_of_string "b") 2 12;
               mkLeaf (bytes_of_string "c") 1 11] in
  ready s = true /\ LogSize s = Ok 1 /\
  NewStorage (db s) = Ok s /\
  (exists size',
      LogSize (fst (Add s ldis)) = Ok size' /\ 1 <= size' <= 1 + 2) /\
  (forall ldi : LeafDedupInfo,
      1 < uint64_max ->
      LogSize (fst (Add s [ldi])) = Ok 1 \/
      LogSize (fst (Add s [ldi])) = Ok (1 + 1)).
Proof.
  intros s ldis.
  assert (Hr : ready s = true) by reflexivity.
  assert (Hs : LogSize s = Ok 1) by reflexivity.
  split; [exact Hr|]. split; [exact Hs|].
  apply (counter_monotone_below_max s ldis 1 Hr Hs).
  unfold uint64_max. simpl. lia.
Defined.

(** *** Entries of the dedup bucket *)

(** C10. When the value stored under a record's leafID is not 16 bytes
    long, [Add] of that record on a ready store reports no error: the
    comparison of indices is skipped and the stored value is replaced by
    the encoding of the incoming record, whatever its index; [Get] then
    returns the incoming record. *)
Theorem corrupt_entry_is_overwritten
        (s : Storage) (ldi : LeafDedupInfo) (old : bytes) :
  ready s = true ->
  valid_key (LeafID ldi) = true ->
  dedup_entry s (LeafID ldi) = Some old ->
  length old <> 16%nat ->
  snd (Add s [ldi]) = Ok tt /\
  dedup_entry (fst (Add s [ldi])) (LeafID ldi)
  = Some (itob (Idx ldi) ++ itob (Timestamp ldi)) /\
  (wf_info ldi -> Get (fst (Add s [ldi])) (LeafID ldi) = Ok (SCT ldi, true)).
Proof.
  intros Hr Hv Hold Hlen.
  destruct (ready_abstracts s Hr) as [a Habs].
  destruct (Add_single s a ldi Habs) as [Habs' Ho].
  rewrite (abstracts_dedup_entry s a _ Habs) in Hold.
  assert (Hstep : step a ldi
                  = ({| entries := <[LeafID ldi := itob (Idx ldi)
                                                   ++ itob (Timestamp ldi)]>
                                     (entries a);
                        counter := bump (counter a) (Idx ldi) |}, true)).
  { unfold step, keeps_old. rewrite Hold.
    apply Nat.eqb_neq in Hlen. rewrite Hlen, Hv. reflexivity. }
  rewrite Hstep in Ho, Habs'. cbn [fst snd] in Ho, Habs'.
  split; [exact Ho|]. split.
  - rewrite (abstracts_dedup_entry _ _ _ Habs'). cbn [entries].
    apply lookup_insert_eq.
  - intros [Hi Ht]. rewrite (Get_abstracts _ _ _ Habs'). cbn [entries].
    rewrite lookup_insert_eq, btov_encoded by assumption.
    destruct ldi as [id [i t]]. reflexivity.
Qed.

Lemma corrupt_entry_is_overwritten_witness :
  let k := bytes_of_string "k" in
  let s := store_with_entry k (repeat "255"%byte 15) in
  let ldi := mkLeaf k 7 11 in
  snd (Add s [ldi]) = Ok tt /\
  dedup_entry (fst (Add s [ldi])) k = Some (itob 7 ++ itob 11) /\
  (wf_info ldi -> Get (fst (Add s [ldi])) k = Ok (SCT ldi, true)).
Proof.
  intros k s ldi.
  apply (corrupt_entry_is_overwritten s ldi (repeat "255"%byte 15));
    [reflexivity|reflexivity|reflexivity|discriminate].
Defined.

Section Sequences.

Variable leafID : bytes.

Lemma Adds_cons (s : Storage) (ldis : list LeafDedupInfo)
      (rest : list (list LeafDedupInfo)) :
  Adds s (ldis :: rest)
  = (fst (Adds (fst (Add s ldis)) rest),
     snd (Add s ldis) :: snd (Adds (fst (Add s ldis)) rest)).
Proof.
  simpl. destruct (Add s ldis) as [s1 o]. simpl.
  destruct (Adds s1 rest) as [s2 os]. reflexivity.
Qed.

(** Calls that do not mention [leafID] leave its entry alone, whether
    they succeed or not. *)
Lemma Adds_entries_other (calls : list (list LeafDedupInfo)) :
  forall (s : Storage) (a : view),
    abstracts s a ->
    Forall (Forall (fun ldi => LeafID ldi <> leafID)) calls ->
    exists a',
      abstracts (fst (Adds s calls)) a' /\
      entries a' !! leafID = entries a !! leafID.
Proof.
  induction calls as [|ldis rest IH]; intros s a Habs Hall.
  - exists a. split; [assumption|reflexivity].
  - apply Forall_cons in Hall as [Hl Hrest].
    rewrite Adds_cons. cbn [fst].
    destruct (Add_run ldis s a Habs) as [Habs1 _].
    destruct (IH _ _ Habs1 Hrest) as (a' & Habs' & He).
    exists a'. split; [assumption|].
    rewrite He. now apply run_entries_other.
Qed.

Lemma merge_wf (cur : option SCTDedupInfo) (x : SCTDedupInfo) :
  wf_opt cur -> wf_info x -> wf_opt (merge cur x).
Proof.
  destruct cur as [c|]; simpl; [|auto].
  destruct (Idx c <=? Idx x); auto.
Qed.

Lemma keeps_old_encoded (c : SCTDedupInfo) (idx : Z) :
  wf_info c -> keeps_old (Some (encode c)) idx = (Idx c <=? idx).
Proof.
  intros [Hi _]. unfold keeps_old, encode.
  rewrite btoi_take8_encoded by assumption. reflexivity.
Qed.

Lemma step_same_leaf (a : view) (cur : option SCTDedupInfo)
      (ldi : LeafDedupInfo) :
  entries a !! leafID = encode <$> cur -> wf_opt cur ->
  LeafID ldi = leafID -> acceptable ldi ->
  snd (step a ldi) = true /\
  entries (fst (step a ldi)) !! leafID = encode <$> merge cur ldi.
Proof.
  intros He Hw Hid [Hv Hwf]. split; [now apply step_valid|].
  unfold step. rewrite Hid, He, <- Hid, Hv.
  destruct cur as [c|]; cbn [fmap option_fmap option_map merge].
  - rewrite keeps_old_encoded by assumption.
    destruct (Idx c <=? Idx ldi); cbn [fst entries].
    + rewrite Hid. exact He.
    + apply lookup_insert_eq.
  - cbn [keeps_old fst entries]. apply lookup_insert_eq.
Qed.

Lemma run_winner (ldis : list LeafDedupInfo) :
  forall (a : view) (cur : option SCTDedupInfo),
    entries a !! leafID = encode <$> cur -> wf_opt cur ->
    Forall acceptable ldis ->
    let cur' := fold_left merge
                  (map SCT (filter (fun ldi => LeafID ldi = leafID) ldis))
                  cur in
    snd (run a ldis) = None /\
    entries (fst (run a ldis)) !! leafID = encode <$> cur' /\
    wf_opt cur'.
Proof.
  induction ldis as [|ldi rest IH]; intros a cur He Hw Hall; simpl run.
  - simpl. auto.
  - apply Forall_cons in Hall as [Hacc Hrest].
    destruct (decide (LeafID ldi = leafID)) as [Hid|Hne].
    + rewrite filter_cons_True by assumption. cbn [map fold_left].
      destruct (step_same_leaf a cur ldi He Hw Hid Hacc) as [Hok He'].
      destruct (step a ldi) as [a' ok]. simpl in Hok, He'. subst ok.
      apply IH; [assumption| |assumption].
      apply merge_wf; [assumption|apply Hacc].
    + rewrite filter_cons_False by assumption.
      pose proof (step_valid a ldi (proj1 Hacc)) as Hok.
      pose proof (step_entries_other a ldi leafID Hne) as He'.
      destruct (step a ldi) as [a' ok]. simpl in Hok, He'. subst ok.
      apply IH; [|assumption|assumption]. now rewrite He'.
Qed.


End Sequences.

Section Minimum.

Lemma fold_min_le_init (l : list Z) :
  forall i, fold_left Z.min l i <= i.
Proof.
  induction l as [|x l IH]; intros i; simpl; [lia|].
  specialize (IH (Z.min i x)). lia.
Qed.

Lemma fold_min_lower_bound (l : list Z) :
  forall i x, In x l -> fold_left Z.min l i <= x.
Proof.
  induction l as [|y l IH]; intros i x Hin; simpl in *; [contradiction|].
  destruct Hin as [->|Hin].
  - pose proof (fold_min_le_init l (Z.min i x)). lia.
  - now apply IH.
Qed.




End Minimum.

(** C8. For a leafID that no [Add] call has carried, [Get] returns the
    zero record with [found = false] and no error: on the fresh store and
    after any sequence of [Add] calls, successful or not, none of whose
    records has this leafID; and likewise from any ready store that holds
    no entry for it. *)
Theorem Get_of_unwritten_leaf
        (calls : list (list LeafDedupInfo)) (leafID : bytes) :
  Forall (Forall (fun ldi => LeafID ldi <> leafID)) calls ->
  Get (fst (Adds fresh calls)) leafID
  = Ok ({| Idx := 0; Timestamp := 0 |}, false) /\
  forall s : Storage,
    ready s = true -> dedup_entry s leafID = None ->
    Get (fst (Adds s calls)) leafID
    = Ok ({| Idx := 0; Timestamp := 0 |}, false).
Proof.
  intros Hall.
  assert (Hgen : forall (s : Storage) (a : view),
             abstracts s a -> entries a !! leafID = None ->
             Get (fst (Adds s calls)) leafID
             = Ok ({| Idx := 0; Timestamp := 0 |}, false)).
  { intros s a Habs Hnone.
    destruct (Adds_entries_other leafID calls s a Habs Hall)
      as (a' & Habs' & He).
    rewrite (Get_abstracts _ _ _ Habs'), He, Hnone. reflexivity. }
  split.
  - apply (Hgen fresh _ fresh_abstracts). reflexivity.
  - intros s Hr Hnone. destruct (ready_abstracts s Hr) as [a Habs].
    apply (Hgen s a Habs).
    now rewrite <- (abstracts_dedup_entry s a leafID Habs).
Qed.

(** Two calls that do not mention "z"; the second fails at its second
    record, whose key is empty. *)
Lemma Get_of_unwritten_leaf_witness :
  let calls := [ [mkLeaf (bytes_of_string "a") 0 10];
                 [mkLeaf (bytes_of_string "b") 1 11; mkLeaf [] 2 12;
                  mkLeaf (bytes_of_string "c") 3 13] ] in
  snd (Adds fresh calls) = [Ok tt; Err (ErrWritingLeafIndex 2)] /\
  Get (fst (Adds fresh calls)) (bytes_of_string "z")
  = Ok ({| Idx := 0; Timestamp := 0 |}, false).
Proof.
  intros calls. split; [reflexivity|].
  refine (proj1 (Get_of_unwritten_leaf calls (bytes_of_string "z") _)).
  repeat constructor; discriminate.
Defined.



(** ** Further properties of the code *)

(** *** The codec, read in both directions *)

Section CodecInverse.

Lemma byte_of_Z_eq (z : Z) (b : byte) :
  z mod 256 = Z_of_byte b -> byte_of_Z z = b.
Proof.
  intros H. rewrite <- (byte_of_Z_of_byte b). unfold byte_of_Z.
  rewrite H, (Z.mod_small (Z_of_byte b)) by apply Z_of_byte_range.
  reflexivity.
Qed.

Lemma testbit_shifted_byte (b : byte) (s m : Z) :
  0 <= s -> 0 <= m ->
  Z.testbit (Z.shiftl (Z_of_byte b) s) m
  = (s <=? m) && (m <? s + 8) && Z.testbit (Z_of_byte b) (m - s).
Proof.
  intros Hs Hm. rewrite Z.shiftl_spec by lia.
  destruct (Z.leb_spec s m); simpl.
  - destruct (Z.ltb_spec m (s + 8)); simpl; [reflexivity|].
    apply Z_of_byte_high_bits. lia.
  - apply Z.testbit_neg_r. lia.
Qed.

(** Proves [byte_of_Z (w >> s) = b] when [w] is the value that [Uint64]
    assembles and [b] the byte it took at shift [s]. *)
Ltac extract_byte :=
  apply byte_of_Z_eq, Z.bits_inj'; intros n Hn;
  change 256 with (2 ^ 8);
  rewrite Z.testbit_mod_pow2, Z.shiftr_spec by lia;
  match goal with
  | |- context [Z.lor (Z_of_byte ?b) _] =>
      rewrite <- (Z.shiftl_0_r (Z_of_byte b)) at 1
  end;
  rewrite !Z.lor_spec, !testbit_shifted_byte by lia;
  destruct (Z.ltb_spec n 8);
  [ repeat match goal with
           | |- context [ ?a <=? ?b ] => destruct (Z.leb_spec a b); try lia
           | |- context [ ?a <? ?b ] => destruct (Z.ltb_spec a b); try lia
           end;
    cbn [andb orb]; rewrite ?orb_false_r; f_equal; lia
  | cbn [andb]; symmetry; apply Z_of_byte_high_bits; lia ].

Lemma itob_of_Uint64 (b0 b1 b2 b3 b4 b5 b6 b7 : byte) (rest : bytes) (v : Z) :
  binary.Uint64 (b0 :: b1 :: b2 :: b3 :: b4 :: b5 :: b6 :: b7 :: rest) = Ok v ->
  itob v = [b0; b1; b2; b3; b4; b5; b6; b7].
Proof.
  intros [= <-]. unfold itob, binary.AppendUint64. cbn [app].
  rewrite <- (Z.shiftr_0_r (Z.lor (Z_of_byte b7) _)) at 8.
  repeat (apply (f_equal2 cons); [extract_byte|]). reflexivity.
Qed.

Lemma itob_btoi (b : bytes) (v : Z) : btoi b = Ok v -> itob v = take 8 b.
Proof.
  intros H. pose proof (btoi_ok_length b v H) as Hl.
  do 8 (destruct b as [|? b]; [simpl in Hl; lia|]).
  cbn [take]. rewrite take_0. now apply itob_of_Uint64 with (rest := b).
Qed.

Lemma btov_of_16 (b : bytes) :
  length b = 16%nat ->
  exists idx ts,
    btov b = Ok (idx, ts) /\ btoi (take 8 b) = Ok idx /\
    btoi (drop 8 b) = Ok ts.
Proof.
  intros Hl.
  destruct (btoi_ok_of_length b ltac:(lia)) as [idx Hi].
  destruct (btoi_ok_of_length (drop 8 b)) as [ts Ht].
  { rewrite length_drop. lia. }
  exists idx, ts. split; [|split; [|exact Ht]].
  - unfold btov, binary.Decode. rewrite Hl. cbn [Nat.eqb negb Nat.ltb Nat.leb].
    unfold btoi in Hi, Ht. rewrite Hi. cbn iota.
    rewrite length_drop, Hl. cbn [Nat.sub Nat.ltb Nat.leb]. now rewrite Ht.
  - rewrite <- Hi. unfold btoi, binary.Uint64.
    do 8 (destruct b as [|? b]; [simpl in Hl; lia|]). reflexivity.
Qed.

End CodecInverse.

(** X1. [btoi] undoes [itob] on every uint64, and reads only the first
    eight bytes of its argument: what follows them is ignored, while fewer
    than eight bytes make it panic. *)
Theorem btoi_itob_prefix (v : Z) (rest short : bytes) :
  is_uint64 v -> (length short < 8)%nat ->
  btoi (itob v ++ rest) = Ok v /\
  btoi short = Panic IndexOutOfRange.
Proof.
  intros Hv Hs. split.
  - now apply Uint64_AppendUint64.
  - unfold btoi, binary.Uint64.
    do 8 (destruct short as [|? short]; [reflexivity|]).
    simpl in Hs. lia.
Qed.

Lemma btoi_itob_prefix_witness :
  btoi (itob uint64_max ++ ["007"%byte]) = Ok uint64_max /\
  btoi ["001"; "002"; "003"]%byte = Panic IndexOutOfRange.
Proof.
  apply (btoi_itob_prefix uint64_max ["007"%byte] ["001"; "002"; "003"]%byte).
  - unfold is_uint64, uint64_max. lia.
  - simpl. lia.
Defined.

(** X2. [itob] undoes [btoi]: whenever [btoi b] returns [v], [v] is a
    uint64 and [itob v] is the first eight bytes of [b]; so on 8-byte
    strings the two functions are inverse bijections. *)
Theorem itob_btoi_round_trip (b : bytes) (v : Z) :
  btoi b = Ok v ->
  is_uint64 v /\ itob v = take 8 b /\ (length b = 8%nat -> itob v = b).
Proof.
  intros H. split; [now apply (btoi_range b)|].
  pose proof (itob_btoi b v H) as Hi. split; [exact Hi|].
  intros Hl. rewrite Hi. apply take_ge. lia.
Qed.

Lemma itob_btoi_round_trip_witness :
  let b := ["001"; "002"; "003"; "004"; "005"; "006"; "007"; "008"]%byte in
  is_uint64 72623859790382856 /\
  itob 72623859790382856 = take 8 b /\
  (length b = 8%nat -> itob 72623859790382856 = b).
Proof.
  intros b. apply (itob_btoi_round_trip b 72623859790382856). reflexivity.
Defined.

(** X3. [btov] accepts every 16-byte string: it returns two uint64 values,
    and [vtob] of these gives the same 16 bytes back.  With the round trip
    of uint64 pairs, [vtob] and [btov] are inverse bijections between
    uint64 pairs and 16-byte strings. *)
Theorem btov_vtob_round_trip (b : bytes) :
  length b = 16%nat ->
  exists idx ts,
    btov b = Ok (idx, ts) /\ is_uint64 idx /\ is_uint64 ts /\
    vtob idx ts = Ok b.
Proof.
  intros Hl. destruct (btov_of_16 b Hl) as (idx & ts & Hb & Hi & Ht).
  exists idx, ts. split; [exact Hb|].
  split; [now apply (btoi_range _ _ Hi)|].
  split; [now apply (btoi_range _ _ Ht)|].
  rewrite vtob_eq. f_equal.
  rewrite (itob_btoi _ _ Hi), (itob_btoi _ _ Ht).
  rewrite take_take, (take_ge (drop 8 b)) by (rewrite length_drop; lia).
  apply take_drop.
Qed.

Lemma btov_vtob_round_trip_witness :
  let b := repeat "255"%byte 8 ++ repeat "000"%byte 7 ++ ["001"%byte] in
  exists idx ts,
    btov b = Ok (idx, ts) /\ is_uint64 idx /\ is_uint64 ts /\
    vtob idx ts = Ok b.
Proof.
  intros b. apply (btov_vtob_round_trip b). reflexivity.
Defined.

(** *** Opening, and what the operations do to an opened store *)

Section Opened.

Lemma opened_buckets (s : Storage) :
  opened s = true ->
  exists dm sm, db s !! dedupBucket = Some dm /\ db s !! sizeBucket = Some sm.
Proof.
  unfold opened. intros H.
  destruct (db s !! dedupBucket) as [dm|]; [|discriminate].
  destruct (db s !! sizeBucket) as [sm|]; [|discriminate]. eauto.
Qed.

Lemma ready_opened (s : Storage) : ready s = true -> opened s = true.
Proof. unfold ready. intros H. now apply andb_true_iff in H. Qed.

Lemma NewStorage_creates (d : bolt.DB) :
  d !! dedupBucket = None -> d !! sizeBucket = None ->
  NewStorage d
  = Ok {| db := <[sizeBucket := {[ sizeKey := itob 0 ]}]>
                  (<[dedupBucket := ∅]> d) |}.
Proof.
  intros Hd Hs.
  assert (Hs' : <[dedupBucket := ∅]> d !! sizeBucket = None).
  { rewrite lookup_insert_ne by apply buckets_distinct. exact Hs. }
  unfold NewStorage, bolt.Update, NewStorage_tx, bolt.bind,
    bolt.Tx_Bucket, bolt.wrap_err, bolt.Tx_CreateBucket.
  rewrite Hd, Hs. simpl. rewrite Hd, Hs'.
  unfold bolt.Bucket_Put. rewrite lookup_insert_eq. simpl.
  rewrite insert_insert_eq. reflexivity.
Qed.

Lemma NewStorage_Ok_inv (d : bolt.DB) (s : Storage) :
  NewStorage d = Ok s ->
  (d !! dedupBucket = None /\ d !! sizeBucket = None /\
   db s = <[sizeBucket := {[ sizeKey := itob 0 ]}]> (<[dedupBucket := ∅]> d))
  \/ (opened {| db := d |} = true /\ db s = d).
Proof.
  intros H.
  destruct (d !! dedupBucket) as [dm|] eqn:Hd,
           (d !! sizeBucket) as [sm|] eqn:Hs.
  - right.
    assert (Ho : opened {| db := d |} = true).
    { unfold opened. simpl. now rewrite Hd, Hs. }
    pose proof (NewStorage_reopen {| db := d |} Ho) as Hre. simpl in Hre.
    rewrite Hre in H. injection H as <-. split; [exact Ho|reflexivity].
  - exfalso. revert H.
    unfold NewStorage, bolt.Update, NewStorage_tx, bolt.bind, bolt.Tx_Bucket.
    now rewrite Hd, Hs.
  - exfalso. revert H.
    unfold NewStorage, bolt.Update, NewStorage_tx, bolt.bind, bolt.Tx_Bucket.
    now rewrite Hd, Hs.
  - left. rewrite (NewStorage_creates d Hd Hs) in H. injection H as <-.
    auto.
Qed.

(** With the "size" key missing, the transaction fails before any write. *)
Lemma Add_missing_size (s : Storage) (ldi : LeafDedupInfo)
      (rest : list LeafDedupInfo) :
  opened s = true -> size_entry s = None ->
  Add s (ldi :: rest) = (s, Err (ErrWritingLeafIndex (Idx ldi))).
Proof.
  intros Ho Hz. destruct (opened_buckets s Ho) as (dm & sm & Hd & Hs).
  unfold size_entry in Hz. rewrite Hs in Hz. simpl.
  unfold bolt.Update, Add_tx, bolt.bind, bolt.Tx_Bucket, bolt.Bucket_Get,
    bolt.fail.
  rewrite Hd, Hs, Hs, Hz. destruct s. reflexivity.
Qed.

(** With a counter value of fewer than 8 bytes, [btoi] panics inside the
    transaction. *)
Lemma Add_short_size (s : Storage) (v : bytes) (ldi : LeafDedupInfo)
      (rest : list LeafDedupInfo) :
  opened s = true -> size_entry s = Some v -> (length v < 8)%nat ->
  Add s (ldi :: rest) = (s, Panic IndexOutOfRange).
Proof.
  intros Ho Hz Hl. destruct (opened_buckets s Ho) as (dm & sm & Hd & Hs).
  unfold size_entry in Hz. rewrite Hs in Hz. simpl.
  assert (Hp : btoi v = Panic IndexOutOfRange).
  { unfold btoi, binary.Uint64.
    do 8 (destruct v as [|? v]; [reflexivity|]). simpl in Hl. lia. }
  unfold bolt.Update, Add_tx, bolt.bind, bolt.Tx_Bucket, bolt.Bucket_Get,
    bolt.lift.
  rewrite Hd, Hs, Hs, Hz, Hp. destruct s. reflexivity.
Qed.

Lemma Add_not_ready (s : Storage) (ldis : list LeafDedupInfo) :
  opened s = true -> ready s = false -> fst (Add s ldis) = s.
Proof.
  intros Ho Hr. destruct ldis as [|ldi rest]; [reflexivity|].
  unfold ready in Hr. rewrite Ho, andb_true_l in Hr.
  destruct (size_entry s) as [v|] eqn:Hz.
  - apply Nat.leb_gt in Hr.
    now rewrite (Add_short_size s v ldi rest Ho Hz Hr).
  - now rewrite (Add_missing_size s ldi rest Ho Hz).
Qed.

Lemma Add_opened (s : Storage) (ldis : list LeafDedupInfo) :
  opened s = true -> opened (fst (Add s ldis)) = true.
Proof.
  intros Ho. destruct (ready s) eqn:Hr.
  - destruct (ready_abstracts s Hr) as [a Habs].
    destruct (Add_run ldis s a Habs) as [Habs' _].
    eapply ready_opened, abstracts_ready, Habs'.
  - now rewrite (Add_not_ready s ldis Ho Hr).
Qed.

Lemma Adds_opened (calls : list (list LeafDedupInfo)) :
  forall s : Storage, opened s = true -> opened (fst (Adds s calls)) = true.
Proof.
  induction calls as [|ldis rest IH]; intros s Ho; [exact Ho|].
  rewrite Adds_cons. cbn [fst]. apply IH. now apply Add_opened.
Qed.

Lemma run_failure (ldis : list LeafDedupInfo) :
  forall (a : view) (i : Z),
    snd (run a ldis) = Some i ->
    exists ldi, In ldi ldis /\ Idx ldi = i /\ valid_key (LeafID ldi) = false.
Proof.
  induction ldis as [|ldi rest IH]; intros a i; simpl run; [discriminate|].
  destruct (step a ldi) as [a' ok] eqn:Es. destruct ok.
  - intros H. destruct (IH a' i H) as (x & Hin & Hx). exists x.
    split; [now right|exact Hx].
  - simpl. intros [= <-]. exists ldi. split; [now left|].
    split; [reflexivity|].
    destruct (valid_key (LeafID ldi)) eqn:Ev; [|reflexivity].
    pose proof (step_valid a ldi Ev) as Hok. rewrite Es in Hok.
    discriminate Hok.
Qed.

End Opened.

(** X4. [NewStorage] succeeds only with both buckets in place: the store
    it returns is opened, opening it again returns the same store, buckets
    of other names are left as found, and a database that already had the
    dedup bucket is returned unchanged. *)
Theorem NewStorage_postconditions (d : bolt.DB) (s : Storage) :
  NewStorage d = Ok s ->
  opened s = true /\
  NewStorage (db s) = Ok s /\
  (forall name : bytes,
      name <> dedupBucket -> name <> sizeBucket -> db s !! name = d !! name) /\
  (is_Some (d !! dedupBucket) -> db s = d).
Proof.
  intros H.
  destruct (NewStorage_Ok_inv d s H) as [(Hd & Hs & Hdb)|[Ho Hdb]].
  - assert (Hop : opened s = true).
    { unfold opened. rewrite Hdb, lookup_insert_eq.
      rewrite lookup_insert_ne
        by (intros E; symmetry in E; revert E; apply buckets_distinct).
      now rewrite lookup_insert_eq. }
    split; [exact Hop|]. split; [now apply NewStorage_reopen|]. split.
    + intros name N1 N2. rewrite Hdb.
      rewrite !lookup_insert_ne by congruence. reflexivity.
    + intros [x Hx]. congruence.
  - assert (Hop : opened s = true) by (destruct s; simpl in *; now subst).
    split; [exact Hop|]. split; [now apply NewStorage_reopen|].
    split; [intros; now rewrite Hdb|intros _; exact Hdb].
Qed.

Lemma NewStorage_postconditions_witness :
  let other := bytes_of_string "other" in
  let d : bolt.DB := {[ other := {[ sizeKey := itob 9 ]} ]} in
  exists s,
    NewStorage d = Ok s /\ opened s = true /\ NewStorage (db s) = Ok s /\
    db s !! other = d !! other.
Proof.
  intros other d.
  exists {| db := <[sizeBucket := {[ sizeKey := itob 0 ]}]>
                    (<[dedupBucket := ∅]> d) |}.
  assert (H : NewStorage d
              = Ok {| db := <[sizeBucket := {[ sizeKey := itob 0 ]}]>
                              (<[dedupBucket := ∅]> d) |}) by reflexivity.
  destruct (NewStorage_postconditions d _ H) as (H1 & H2 & H3 & _).
  split; [exact H|]. split; [exact H1|]. split; [exact H2|].
  apply H3; discriminate.
Defined.

(** X5. What a store holds survives closing and opening it again: after
    [NewStorage] succeeded and any sequence of [Add] calls was made,
    whatever their outcomes, [NewStorage] on the resulting database
    succeeds and returns that very state. *)
Theorem reopen_after_Adds
        (d : bolt.DB) (s : Storage) (calls : list (list LeafDedupInfo)) :
  NewStorage d = Ok s ->
  NewStorage (db (fst (Adds s calls))) = Ok (fst (Adds s calls)).
Proof.
  intros H. apply NewStorage_reopen, Adds_opened.
  destruct (NewStorage_Ok_inv d s H) as [(Hd & Hs & Hdb)|[Ho Hdb]].
  - unfold opened. rewrite Hdb, lookup_insert_eq.
    rewrite lookup_insert_ne
      by (intros E; symmetry in E; revert E; apply buckets_distinct).
    now rewrite lookup_insert_eq.
  - destruct s; simpl in *; now subst.
Qed.

Lemma reopen_after_Adds_witness :
  let calls := [ [mkLeaf (bytes_of_string "a") 0 10; mkLeaf [] 1 11];
                 [mkLeaf (bytes_of_string "b") 1 12] ] in
  NewStorage (db (fst (Adds fresh calls))) = Ok (fst (Adds fresh calls)) /\
  LogSize (fst (Adds fresh calls)) = Ok 2.
Proof.
  intros calls. split; [|reflexivity].
  apply (reopen_after_Adds ∅ fresh calls). reflexivity.
Defined.

(** X6. [LogSize] never fails once the "size" key is there: on an opened
    store whose counter value is [v], of any length, it returns the uint64
    whose big-endian bytes are the first eight bytes of [v], padded with
    zero bytes when [v] is shorter. *)
Theorem LogSize_pads_and_truncates (s : Storage) (v : bytes) :
  opened s = true -> size_entry s = Some v ->
  exists n,
    LogSize s = Ok n /\ is_uint64 n /\ itob n = make_copy 8 v.
Proof.
  intros Ho Hz. destruct (opened_buckets s Ho) as (dm & sm & Hd & Hs).
  unfold size_entry in Hz. rewrite Hs in Hz.
  assert (Hl : length (make_copy 8 v) = 8%nat).
  { unfold make_copy. rewrite length_take, length_app, repeat_length. lia. }
  destruct (btoi_ok_of_length (make_copy 8 v) ltac:(lia)) as [n Hn].
  exists n. split; [|split].
  - unfold LogSize, bolt.View, bolt.bind, bolt.Tx_Bucket, bolt.Bucket_Get,
      bolt.ret.
    now rewrite Hs, Hs, Hz.
  - now apply (btoi_range _ _ Hn).
  - rewrite (itob_btoi _ _ Hn). apply take_ge. lia.
Qed.

Lemma LogSize_pads_and_truncates_witness :
  LogSize store_with_short_size = Ok 72623842526232576 /\
  itob 72623842526232576
  = ["001"; "002"; "003"; "000"; "000"; "000"; "000"; "000"]%byte.
Proof.
  destruct (LogSize_pads_and_truncates store_with_short_size
              ["001"; "002"; "003"]%byte eq_refl eq_refl)
    as (n & Hn & _ & Hb).
  assert (n = 72623842526232576) as ->.
  { change (LogSize store_with_short_size) with (@Ok Z 72623842526232576) in Hn.
    now injection Hn. }
  split; [exact Hn|exact Hb].
Defined.

(** X7. [Add] does not read the counter the way [LogSize] does: on an
    opened store whose counter value has fewer than 8 bytes, [Add] of a
    non-empty batch panics in [btoi] at its first record and leaves the
    store as it was. *)
Theorem Add_panics_on_short_counter
        (s : Storage) (v : bytes) (ldi : LeafDedupInfo)
        (rest : list LeafDedupInfo) :
  opened s = true -> size_entry s = Some v -> (length v < 8)%nat ->
  Add s (ldi :: rest) = (s, Panic IndexOutOfRange).
Proof. apply Add_short_size. Qed.

Lemma Add_panics_on_short_counter_witness :
  Add store_with_short_size [mkLeaf (bytes_of_string "a") 0 10]
  = (store_with_short_size, Panic IndexOutOfRange).
Proof.
  apply (Add_panics_on_short_counter store_with_short_size
           ["001"; "002"; "003"]%byte); [reflexivity|reflexivity|].
  simpl. lia.
Defined.

(** *** Batches: composition, failure, and what stays untouched *)

Section Batches.

Lemma Add_app (l1 : list LeafDedupInfo) :
  forall (s : Storage) (l2 : list LeafDedupInfo),
    snd (Add s l1) = Ok tt -> Add s (l1 ++ l2) = Add (fst (Add s l1)) l2.
Proof.
  induction l1 as [|ldi rest IH]; intros s l2; simpl; [reflexivity|].
  destruct (bolt.Update (db s) (Add_tx ldi)) as [d' [[]|e|p]]; simpl.
  - apply IH.
  - discriminate.
  - discriminate.
Qed.

Lemma Update_rollback (d d' : bolt.DB) (fn : bolt.Tx unit) (o : outcome unit) :
  bolt.Update d fn = (d', o) -> o <> Ok tt -> d' = d.
Proof.
  unfold bolt.Update. destruct (fn d) as [[[] d1]|e|p]; intros [= <- <-] Hne.
  - contradiction.
  - reflexivity.
  - reflexivity.
Qed.

Lemma btov_never_panics (b : bytes) (p : panic) : btov b <> Panic p.
Proof.
  destruct (Nat.eq_dec (length b) 16%nat) as [Hl|Hl].
  - destruct (btov_of_16 b Hl) as (i & t & Hb & _). rewrite Hb. discriminate.
  - unfold btov. apply Nat.eqb_neq in Hl. rewrite Hl. discriminate.
Qed.

Lemma keeps_old_true (e : option bytes) (idx : Z) :
  keeps_old e idx = true <->
  exists old i,
    e = Some old /\ length old = 16%nat /\ btoi (take 8 old) = Ok i /\
    i <= idx.
Proof.
  unfold keeps_old. split.
  - destruct e as [old|]; [|discriminate]. intros H.
    apply andb_true_iff in H as [Hl Hi]. apply Nat.eqb_eq in Hl.
    destruct (btoi (take 8 old)) as [i| |] eqn:Eb; try discriminate.
    apply Z.leb_le in Hi. eauto 6.
  - intros (old & i & -> & Hl & Hb & Hle).
    rewrite Hl, Hb. simpl. now apply Z.leb_le.
Qed.

(** Once the entry of a leaf has an index at most [idx], it keeps one. *)
Lemma step_keeps_old_mono (a : view) (ldi : LeafDedupInfo) (id : bytes)
      (idx : Z) :
  is_uint64 (Idx ldi) ->
  keeps_old (entries a !! id) idx = true ->
  keeps_old (entries (fst (step a ldi)) !! id) idx = true.
Proof.
  intros Hwf Hk.
  destruct (decide (LeafID ldi = id)) as [<-|Hne].
  - unfold step.
    destruct (keeps_old (entries a !! LeafID ldi) (Idx ldi)) eqn:Ek;
      [exact Hk|].
    destruct (valid_key (LeafID ldi)); [|exact Hk].
    cbn [fst entries]. rewrite lookup_insert_eq.
    apply keeps_old_true in Hk as (old & i & He & Hl & Hb & Hle).
    apply keeps_old_true. eexists _, (Idx ldi).
    split; [reflexivity|]. split; [reflexivity|].
    split; [now apply btoi_take8_encoded|].
    destruct (Z.le_gt_cases i (Idx ldi)) as [Hc|Hc]; [|lia].
    exfalso. assert (keeps_old (entries a !! LeafID ldi) (Idx ldi) = true)
      by (apply keeps_old_true; eauto 6).
    congruence.
  - now rewrite (step_entries_other a ldi id Hne).
Qed.

Lemma run_keeps_old_mono (id : bytes) (idx : Z) (ldis : list LeafDedupInfo) :
  forall a : view,
    Forall (fun ldi : LeafDedupInfo => is_uint64 (Idx ldi)) ldis ->
    keeps_old (entries a !! id) idx = true ->
    keeps_old (entries (fst (run a ldis)) !! id) idx = true.
Proof.
  induction ldis as [|ldi rest IH]; intros a Hall Hk; simpl run;
    [exact Hk|].
  apply Forall_cons in Hall as [Hwf Hrest].
  pose proof (step_keeps_old_mono a ldi id idx Hwf Hk) as Hk'.
  destruct (step a ldi) as [a' [|]]; simpl in *; [|exact Hk'].
  now apply IH.
Qed.

Lemma Get_found (s : Storage) (a : view) (id : bytes) (r : SCTDedupInfo) :
  abstracts s a ->
  (Get s id = Ok (r, true) <->
   exists v, entries a !! id = Some v /\ btov v = Ok (Idx r, Timestamp r)).
Proof.
  intros Habs. rewrite (Get_abstracts s a id Habs).
  destruct (entries a !! id) as [v|].
  - destruct (btov v) as [[i t]|e|p] eqn:Eb.
    + split.
      * intros [= <-]. exists v. split; [reflexivity|exact Eb].
      * intros (v' & [= <-] & Hb). rewrite Eb in Hb. injection Hb as -> ->.
        destruct r. reflexivity.
    + split; [discriminate|]. intros (v' & [= <-] & Hb). congruence.
    + split; [discriminate|]. intros (v' & [= <-] & Hb). congruence.
  - split; [discriminate|]. intros (v' & Hv & _). discriminate.
Qed.

End Batches.

(** X8. A ready store stays ready and nothing panics on it: after [Add]
    of any batch the store is ready again; the call returns nil or the
    error naming the index of a record of the batch whose key the store
    refuses; [LogSize] returns a value; [Get] returns a result or an
    error. *)
Theorem ready_store_never_panics
        (s : Storage) (ldis : list LeafDedupInfo) (leafID : bytes) :
  ready s = true ->
  ready (fst (Add s ldis)) = true /\
  (snd (Add s ldis) = Ok tt \/
   exists ldi,
     In ldi ldis /\ valid_key (LeafID ldi) = false /\
     snd (Add s ldis) = Err (ErrWritingLeafIndex (Idx ldi))) /\
  (exists n, LogSize s = Ok n) /\
  (forall p, Get s leafID <> Panic p).
Proof.
  intros Hr. destruct (ready_abstracts s Hr) as [a Habs].
  destruct (Add_run ldis s a Habs) as [Habs' Ho].
  split; [eapply abstracts_ready, Habs'|]. split; [|split].
  - rewrite Ho. destruct (snd (run a ldis)) as [i|] eqn:Er; [right|now left].
    destruct (run_failure ldis a i Er) as (ldi & Hin & <- & Hv).
    exists ldi. auto.
  - exists (counter a). now apply LogSize_abstracts.
  - intros p. rewrite (Get_abstracts s a leafID Habs).
    destruct (entries a !! leafID) as [v|]; [|discriminate].
    pose proof (btov_never_panics v) as Hnp.
    destruct (btov v) as [[i t]|e|q]; try discriminate.
    intros [= ->]. now apply (Hnp p).
Qed.

Lemma ready_store_never_panics_witness :
  let ldis := [mkLeaf (bytes_of_string "a") 0 10; mkLeaf [] 1 11] in
  ready (fst (Add fresh ldis)) = true /\
  snd (Add fresh ldis) = Err (ErrWritingLeafIndex 1) /\
  (exists n, LogSize fresh = Ok n) /\
  (forall p, Get fresh (bytes_of_string "a") <> Panic p).
Proof.
  intros ldis.
  destruct (ready_store_never_panics fresh ldis (bytes_of_string "a") eq_refl)
    as (H1 & _ & H3 & H4).
  split; [exact H1|]. split; [reflexivity|]. split; [exact H3|exact H4].
Defined.

(** X9. One [Add] call with the batch [l1 ++ l2] is the same as an [Add]
    call with [l1] that succeeds followed by an [Add] call with [l2]: same
    final store, same outcome, on any store. *)
Theorem Add_batch_is_successive_calls
        (s : Storage) (l1 l2 : list LeafDedupInfo) :
  snd (Add s l1) = Ok tt ->
  Add s (l1 ++ l2) = Add (fst (Add s l1)) l2.
Proof. intros H. now apply Add_app. Qed.

Lemma Add_batch_is_successive_calls_witness :
  let l1 := [mkLeaf (bytes_of_string "a") 0 10] in
  let l2 := [mkLeaf (bytes_of_string "b") 1 11;
             mkLeaf (bytes_of_string "a") 2 12] in
  Add fresh (l1 ++ l2) = Add (fst (Add fresh l1)) l2 /\
  LogSize (fst (Add fresh (l1 ++ l2))) = Ok 3.
Proof.
  intros l1 l2. split; [|reflexivity].
  apply (Add_batch_is_successive_calls fresh l1 l2). reflexivity.
Defined.

(** X10. [Add] stops at the first record whose transaction does not
    commit: when the records [pre] are added successfully and the
    transaction of [ldi] then fails, the call with [pre ++ ldi :: post]
    leaves the store exactly as [pre] left it (the failed transaction is
    rolled back and [post] is not attempted) and returns the failure of
    [ldi], which is the error naming [ldi]'s index or a panic. *)
Theorem Add_stops_at_first_failure
        (s : Storage) (pre post : list LeafDedupInfo) (ldi : LeafDedupInfo) :
  snd (Add s pre) = Ok tt ->
  snd (Add (fst (Add s pre)) [ldi]) <> Ok tt ->
  Add s (pre ++ ldi :: post)
  = (fst (Add s pre), snd (Add (fst (Add s pre)) [ldi])) /\
  (snd (Add (fst (Add s pre)) [ldi]) = Err (ErrWritingLeafIndex (Idx ldi)) \/
   exists p, snd (Add (fst (Add s pre)) [ldi]) = Panic p).
Proof.
  intros Hpre Hfail. rewrite (Add_app pre s (ldi :: post) Hpre).
  set (s1 := fst (Add s pre)) in *. revert Hfail. simpl.
  destruct (bolt.Update (db s1) (Add_tx ldi)) as [d' o] eqn:Eu.
  destruct o as [[]|e|p]; simpl; intros Hfail.
  - contradiction.
  - rewrite (Update_rollback _ _ _ _ Eu) by discriminate.
    destruct s1. split; [reflexivity|now left].
  - rewrite (Update_rollback _ _ _ _ Eu) by discriminate.
    destruct s1. split; [reflexivity|right; eauto].
Qed.

Lemma Add_stops_at_first_failure_witness :
  let pre := [mkLeaf (bytes_of_string "a") 0 10] in
  let bad := mkLeaf [] 1 11 in
  let post := [mkLeaf (bytes_of_string "b") 2 12] in
  Add fresh (pre ++ bad :: post)
  = (fst (Add fresh pre), Err (ErrWritingLeafIndex 1)) /\
  Get (fst (Add fresh (pre ++ bad :: post))) (bytes_of_string "b")
  = Ok ({| Idx := 0; Timestamp := 0 |}, false).
Proof.
  intros pre bad post. split; [|reflexivity].
  destruct (Add_stops_at_first_failure fresh pre post bad) as [H _].
  - reflexivity.
  - discriminate.
  - exact H.
Defined.

(** X11. [Add] touches only the leaves it is given: on a ready store, for
    a leafID that no record of the batch carries, the stored value and the
    result of [Get] are the same after the call as before, whatever the
    value and whatever the outcome of the call. *)
Theorem Add_leaves_other_entries
        (s : Storage) (ldis : list LeafDedupInfo) (leafID : bytes) :
  ready s = true ->
  Forall (fun ldi => LeafID ldi <> leafID) ldis ->
  dedup_entry (fst (Add s ldis)) leafID = dedup_entry s leafID /\
  Get (fst (Add s ldis)) leafID = Get s leafID.
Proof.
  intros Hr Hall. destruct (ready_abstracts s Hr) as [a Habs].
  destruct (Add_run ldis s a Habs) as [Habs' _].
  pose proof (run_entries_other leafID ldis a Hall) as He.
  split.
  - rewrite (abstracts_dedup_entry _ _ _ Habs'), He.
    symmetry. now apply abstracts_dedup_entry.
  - rewrite (Get_abstracts _ _ _ Habs'), He.
    symmetry. now apply Get_abstracts.
Qed.

Lemma Add_leaves_other_entries_witness :
  let s := fst (Add fresh [mkLeaf (bytes_of_string "a") 4 40]) in
  let ldis := [mkLeaf (bytes_of_string "b") 0 10;
               mkLeaf (bytes_of_string "c") 1 11] in
  dedup_entry (fst (Add s ldis)) (bytes_of_string "a")
  = dedup_entry s (bytes_of_string "a") /\
  Get (fst (Add s ldis)) (bytes_of_string "a")
  = Ok ({| Idx := 4; Timestamp := 40 |}, true).
Proof.
  intros s ldis.
  destruct (Add_leaves_other_entries s ldis (bytes_of_string "a") eq_refl)
    as [H1 H2].
  - repeat constructor; discriminate.
  - split; [exact H1|]. rewrite H2. reflexivity.
Defined.

(** X12. [Get] tells an absent key from a present one: on an opened store
    it returns [found = false] exactly when the dedup bucket has no value
    for the leafID, and then the record is the zero record; a present key
    yields [found = true] or an error. *)
Theorem Get_not_found_iff_absent (s : Storage) (leafID : bytes) :
  opened s = true ->
  ((exists r, Get s leafID = Ok (r, false)) <-> dedup_entry s leafID = None) /\
  (dedup_entry s leafID = None ->
   Get s leafID = Ok ({| Idx := 0; Timestamp := 0 |}, false)).
Proof.
  intros Ho. destruct (opened_buckets s Ho) as (dm & sm & Hd & Hs).
  assert (Hg : Get s leafID
               = match dm !! leafID with
                 | None => Ok ({| Idx := 0; Timestamp := 0 |}, false)
                 | Some v =>
                     match btov v with
                     | Ok (idx, t) => Ok ({| Idx := idx; Timestamp := t |}, true)
                     | Err e => Err (ErrBtov e)
                     | Panic p => Panic p
                     end
                 end).
  { unfold Get, bolt.View, bolt.bind, bolt.Tx_Bucket, bolt.Bucket_Get,
      bolt.ret.
    rewrite Hd, Hd. destruct (dm !! leafID) as [v|]; [|reflexivity].
    rewrite make_copy_exact. destruct (btov v) as [[i t]|e|p]; reflexivity. }
  unfold dedup_entry. rewrite Hd, Hg.
  destruct (dm !! leafID) as [v|].
  - split; [|discriminate]. split; [|discriminate].
    intros [r Hr]. destruct (btov v) as [[i t]|e|p]; discriminate.
  - split; [|reflexivity]. split; [reflexivity|eauto].
Qed.

(** A present entry that decodes to the zero record is found. *)
Lemma Get_not_found_iff_absent_witness :
  let k := bytes_of_string "k" in
  let s := store_with_entry k (itob 0 ++ itob 0) in
  Get s k = Ok ({| Idx := 0; Timestamp := 0 |}, true) /\
  ~ (exists r, Get s k = Ok (r, false)) /\
  Get s (bytes_of_string "z") = Ok ({| Idx := 0; Timestamp := 0 |}, false).
Proof.
  intros k s. split; [reflexivity|]. split.
  - destruct (Get_not_found_iff_absent s k eq_refl) as [[H1 _] _].
    intros Hex. apply H1 in Hex. discriminate Hex.
  - apply (proj2 (Get_not_found_iff_absent s (bytes_of_string "z") eq_refl)).
    reflexivity.
Defined.

(** *** Entries over time *)

Section EntriesOverTime.

Lemma btov_take8 (v : bytes) (i t : Z) :
  btov v = Ok (i, t) -> length v = 16%nat /\ btoi (take 8 v) = Ok i.
Proof.
  intros Hb.
  assert (Hl : length v = 16%nat).
  { destruct (Nat.eq_dec (length v) 16%nat) as [Hl|Hl]; [exact Hl|].
    unfold btov in Hb. apply Nat.eqb_neq in Hl. rewrite Hl in Hb.
    discriminate Hb. }
  split; [exact Hl|].
  destruct (btov_of_16 v Hl) as (i' & t' & Hb' & Hi & _).
  rewrite Hb in Hb'. injection Hb' as -> ->. exact Hi.
Qed.

Lemma step_well_sized (a : view) (ldi : LeafDedupInfo) :
  (forall id v, entries a !! id = Some v -> length v = 16%nat) ->
  forall id v, entries (fst (step a ldi)) !! id = Some v -> length v = 16%nat.
Proof.
  intros Hws id v. unfold step.
  destruct (keeps_old _ _); [apply Hws|].
  destruct (valid_key _); [|apply Hws]. cbn [fst entries].
  destruct (decide (LeafID ldi = id)) as [->|Hne].
  - rewrite lookup_insert_eq. intros [= <-]. reflexivity.
  - rewrite lookup_insert_ne by assumption. apply Hws.
Qed.

Lemma run_well_sized (ldis : list LeafDedupInfo) :
  forall a : view,
    (forall id v, entries a !! id = Some v -> length v = 16%nat) ->
    forall id v,
      entries (fst (run a ldis)) !! id = Some v -> length v = 16%nat.
Proof.
  induction ldis as [|ldi rest IH]; intros a Hws; simpl run; [exact Hws|].
  pose proof (step_well_sized a ldi Hws) as Hws'.
  destruct (step a ldi) as [a' [|]]; simpl in *; [|exact Hws'].
  now apply IH.
Qed.

Lemma Adds_well_sized (calls : list (list LeafDedupInfo)) :
  forall (s : Storage) (a : view),
    abstracts s a ->
    (forall id v, entries a !! id = Some v -> length v = 16%nat) ->
    exists a',
      abstracts (fst (Adds s calls)) a' /\
      (forall id v, entries a' !! id = Some v -> length v = 16%nat).
Proof.
  induction calls as [|ldis rest IH]; intros s a Habs Hws.
  - exists a. split; assumption.
  - rewrite Adds_cons. cbn [fst].
    destruct (Add_run ldis s a Habs) as [Habs1 _].
    apply (IH _ _ Habs1). now apply run_well_sized.
Qed.

End EntriesOverTime.

(** X13. The tie-break against an entry that is already stored: on a
    ready store holding the record [(i, t)] for a leaf, a successful [Add]
    of [(idx, ts)] for that leaf leaves [(i, t)] when [i <= idx] and
    replaces it by [(idx, ts)] when [idx < i]; the timestamp changes only
    together with the index. *)
Theorem Add_against_stored_entry
        (s : Storage) (ldi : LeafDedupInfo) (i t : Z) :
  ready s = true -> acceptable ldi ->
  is_uint64 i -> is_uint64 t ->
  dedup_entry s (LeafID ldi) = Some (itob i ++ itob t) ->
  snd (Add s [ldi]) = Ok tt /\
  Get (fst (Add s [ldi])) (LeafID ldi)
  = Ok (if i <=? Idx ldi then {| Idx := i; Timestamp := t |} else SCT ldi,
        true).
Proof.
  intros Hr [Hv [Hi' Ht']] Hi Ht He.
  destruct (ready_abstracts s Hr) as [a Habs].
  rewrite (abstracts_dedup_entry s a _ Habs) in He.
  destruct (Add_single s a ldi Habs) as [Habs' Ho].
  rewrite (step_valid a ldi Hv) in Ho. split; [exact Ho|].
  rewrite (Get_abstracts _ _ _ Habs').
  assert (Hk : keeps_old (entries a !! LeafID ldi) (Idx ldi)
               = (i <=? Idx ldi)).
  { rewrite He.
    apply (keeps_old_encoded {| Idx := i; Timestamp := t |}).
    split; assumption. }
  unfold step. rewrite Hk, Hv.
  destruct (i <=? Idx ldi); cbn [fst entries].
  - rewrite He, btov_encoded by assumption. reflexivity.
  - rewrite lookup_insert_eq, btov_encoded by assumption.
    destruct ldi as [id [x y]]. reflexivity.
Qed.

Lemma Add_against_stored_entry_witness :
  let a := bytes_of_string "a" in
  let s := fst (Add fresh [mkLeaf a 5 50]) in
  (snd (Add s [mkLeaf a 5 51]) = Ok tt /\
   Get (fst (Add s [mkLeaf a 5 51])) a
   = Ok ({| Idx := 5; Timestamp := 50 |}, true)) /\
  (snd (Add s [mkLeaf a 2 20]) = Ok tt /\
   Get (fst (Add s [mkLeaf a 2 20])) a
   = Ok ({| Idx := 2; Timestamp := 20 |}, true)).
Proof.
  intros a s.
  assert (H5 : is_uint64 5) by (unfold is_uint64; lia).
  assert (H50 : is_uint64 50) by (unfold is_uint64; lia).
  split.
  - apply (Add_against_stored_entry s (mkLeaf a 5 51) 5 50);
      [reflexivity| |exact H5|exact H50|reflexivity].
    repeat split; simpl; lia.
  - apply (Add_against_stored_entry s (mkLeaf a 2 20) 5 50);
      [reflexivity| |exact H5|exact H50|reflexivity].
    repeat split; simpl; lia.
Defined.

(** X14. An entry is never deleted and its index never grows: on a ready
    store where [Get] finds a record for a leaf, after [Add] of any batch
    of records with uint64 indices, whatever the outcome of the call,
    [Get] still finds a record for that leaf, with an index that is at
    most the former one. *)
Theorem stored_index_never_grows
        (s : Storage) (ldis : list LeafDedupInfo) (leafID : bytes)
        (r : SCTDedupInfo) :
  ready s = true ->
  Forall (fun ldi : LeafDedupInfo => is_uint64 (Idx ldi)) ldis ->
  Get s leafID = Ok (r, true) ->
  exists r',
    Get (fst (Add s ldis)) leafID = Ok (r', true) /\ Idx r' <= Idx r.
Proof.
  intros Hr Hall Hg. destruct (ready_abstracts s Hr) as [a Habs].
  destruct (proj1 (Get_found s a leafID r Habs) Hg) as (v & Hv & Hb).
  apply btov_take8 in Hb as [Hl Hi].
  assert (Hk : keeps_old (entries a !! leafID) (Idx r) = true).
  { apply keeps_old_true. exists v, (Idx r). repeat split; try assumption.
    lia. }
  destruct (Add_run ldis s a Habs) as [Habs' _].
  pose proof (run_keeps_old_mono leafID (Idx r) ldis a Hall Hk) as Hk'.
  apply keeps_old_true in Hk' as (v' & i' & Hv' & Hl' & Hi' & Hle).
  destruct (btov_of_16 v' Hl') as (idx & ts & Hb' & Hidx & _).
  rewrite Hi' in Hidx. injection Hidx as <-.
  exists {| Idx := i'; Timestamp := ts |}. split; [|exact Hle].
  apply (Get_found _ _ leafID _ Habs'). exists v'. split; assumption.
Qed.

Lemma stored_index_never_grows_witness :
  let a := bytes_of_string "a" in
  let s := fst (Add fresh [mkLeaf a 5 50]) in
  let ldis := [mkLeaf a 9 90; mkLeaf [] 1 11; mkLeaf a 3 30] in
  exists r',
    Get (fst (Add s ldis)) a = Ok (r', true) /\ Idx r' <= 5.
Proof.
  intros a s ldis.
  apply (stored_index_never_grows s ldis a {| Idx := 5; Timestamp := 50 |});
    [reflexivity| |reflexivity].
  repeat constructor; simpl; lia.
Defined.

(** X15. A store that only [NewStorage] and [Add] have written has none
    but 16-byte values in its dedup bucket, so [Get] never returns an
    error on it: after any sequence of [Add] calls on the fresh store,
    whatever their outcomes, [Get] of any leafID returns a record and a
    found flag. *)
Theorem Get_never_fails_after_Adds
        (calls : list (list LeafDedupInfo)) (leafID : bytes) :
  entries_well_sized (fst (Adds fresh calls)) /\
  exists r found, Get (fst (Adds fresh calls)) leafID = Ok (r, found).
Proof.
  destruct (Adds_well_sized calls fresh _ fresh_abstracts)
    as (a' & Habs' & Hws).
  { intros id v. cbn [entries]. rewrite lookup_empty. discriminate. }
  split.
  - intros id v. rewrite (abstracts_dedup_entry _ _ _ Habs'). apply Hws.
  - rewrite (Get_abstracts _ _ _ Habs').
    destruct (entries a' !! leafID) as [v|] eqn:Ev; [|eauto].
    destruct (btov_of_16 v (Hws _ _ Ev)) as (i & t & Hb & _).
    rewrite Hb. eauto.
Qed.

(** *** The counter over batches *)

Section CounterOverBatches.

Lemma bump_other (size idx : Z) : idx <> size -> bump size idx = size.
Proof.
  intros Hne. unfold bump. destruct (Z.eqb_spec size idx); [congruence|].
  reflexivity.
Qed.

Lemma bump_same (size : Z) :
  is_uint64 size -> size < uint64_max -> bump size size = size + 1.
Proof.
  unfold is_uint64, uint64_max, bump, wrap64. intros Hr Hlt.
  rewrite Z.eqb_refl, Z.mod_small by lia. reflexivity.
Qed.

Lemma run_counter_fixed (ldis : list LeafDedupInfo) :
  forall a : view,
    Forall (fun ldi : LeafDedupInfo => Idx ldi <> counter a) ldis ->
    counter (fst (run a ldis)) = counter a.
Proof.
  induction ldis as [|ldi rest IH]; intros a Hall; simpl run; [reflexivity|].
  apply Forall_cons in Hall as [Hne Hrest].
  pose proof (step_counter a ldi) as Hc.
  rewrite (bump_other _ _ Hne) in Hc.
  destruct (step a ldi) as [a' ok]. simpl in Hc.
  assert (Hc' : counter a' = counter a) by (destruct ok; exact Hc).
  destruct ok; simpl; [|exact Hc'].
  rewrite IH; [exact Hc'|]. now rewrite Hc'.
Qed.

Lemma run_counter_in_order (ldis : list LeafDedupInfo) :
  forall a : view,
    is_uint64 (counter a) ->
    Forall (fun ldi => valid_key (LeafID ldi) = true) ldis ->
    map (fun ldi : LeafDedupInfo => Idx ldi) ldis
    = seqZ (counter a) (Z.of_nat (length ldis)) ->
    counter a + Z.of_nat (length ldis) <= uint64_max ->
    snd (run a ldis) = None /\
    counter (fst (run a ldis)) = counter a + Z.of_nat (length ldis).
Proof.
  induction ldis as [|ldi rest IH]; intros a Hr Hall Hseq Hb; simpl run.
  - simpl. split; [reflexivity|lia].
  - apply Forall_cons in Hall as [Hv Hrest].
    rewrite length_cons, Nat2Z.inj_succ in Hseq, Hb |- *.
    rewrite seqZ_cons in Hseq by lia. cbn [map] in Hseq.
    injection Hseq as Hidx Hseq. rewrite Z.pred_succ in Hseq.
    pose proof (step_counter a ldi) as Hc.
    rewrite (step_valid a ldi Hv), Hidx in Hc.
    rewrite bump_same in Hc by (unfold uint64_max in *; auto; lia).
    pose proof (step_valid a ldi Hv) as Hok.
    destruct (step a ldi) as [a' ok]. simpl in Hc, Hok. subst ok.
    assert (Hr' : is_uint64 (counter a')).
    { unfold is_uint64, uint64_max in *. lia. }
    destruct (IH a' Hr' Hrest) as [H1 H2].
    + rewrite Hc. exact Hseq.
    + lia.
    + split; [exact H1|]. lia.
Qed.

(** Every index below the counter was carried by a record seen so far. *)
Lemma run_watermark (ldis : list LeafDedupInfo) :
  forall (a : view) (seen : list LeafDedupInfo),
    0 <= counter a ->
    (forall i, 0 <= i < counter a ->
               exists ldi, In ldi seen /\ Idx ldi = i) ->
    0 <= counter (fst (run a ldis)) /\
    (forall i, 0 <= i < counter (fst (run a ldis)) ->
               exists ldi, In ldi (seen ++ ldis) /\ Idx ldi = i).
Proof.
  induction ldis as [|ldi rest IH]; intros a seen H0 Hinv; simpl run.
  - rewrite app_nil_r. auto.
  - pose proof (step_counter a ldi) as Hc.
    assert (Hstep : 0 <= counter (fst (step a ldi)) /\
                    forall i, 0 <= i < counter (fst (step a ldi)) ->
                              exists x, In x (seen ++ [ldi]) /\ Idx x = i).
    { rewrite Hc. destruct (snd (step a ldi)).
      - unfold bump, wrap64. destruct (Z.eqb_spec (counter a) (Idx ldi)).
        + pose proof (Z.mod_pos_bound (counter a + 1) (2 ^ 64) ltac:(lia)).
          pose proof (Z.mod_le (counter a + 1) (2 ^ 64) ltac:(lia) ltac:(lia)).
          split; [lia|]. intros i Hi.
          destruct (Z.eq_dec i (counter a)) as [->|Hne].
          * exists ldi. split; [apply in_or_app; right; now left|auto].
          * destruct (Hinv i ltac:(lia)) as (x & Hin & Hx).
            exists x. split; [apply in_or_app; now left|exact Hx].
        + split; [exact H0|]. intros i Hi.
          destruct (Hinv i Hi) as (x & Hin & Hx).
          exists x. split; [apply in_or_app; now left|exact Hx].
      - split; [exact H0|]. intros i Hi.
        destruct (Hinv i Hi) as (x & Hin & Hx).
        exists x. split; [apply in_or_app; now left|exact Hx]. }
    destruct Hstep as [H0' Hinv'].
    destruct (step a ldi) as [a' ok]. simpl in H0', Hinv'.
    destruct ok; simpl.
    + destruct (IH a' (seen ++ [ldi]) H0' Hinv') as [H1 H2].
      split; [exact H1|]. intros i Hi.
      destruct (H2 i Hi) as (x & Hin & Hx). exists x.
      rewrite <- app_assoc in Hin. auto.
    + split; [exact H0'|]. intros i Hi.
      destruct (Hinv' i Hi) as (x & Hin & Hx). exists x.
      split; [|exact Hx].
      apply in_app_or in Hin as [Hin|Hin]; apply in_or_app; [now left|].
      right. destruct Hin as [<-|[]]. now left.
Qed.

Lemma Adds_watermark (calls : list (list LeafDedupInfo)) :
  forall (s : Storage) (a : view) (seen : list LeafDedupInfo),
    abstracts s a ->
    0 <= counter a ->
    (forall i, 0 <= i < counter a ->
               exists ldi, In ldi seen /\ Idx ldi = i) ->
    exists a',
      abstracts (fst (Adds s calls)) a' /\
      (forall i, 0 <= i < counter a' ->
                 exists ldi, In ldi (seen ++ concat calls) /\ Idx ldi = i).
Proof.
  induction calls as [|ldis rest IH]; intros s a seen Habs H0 Hinv.
  - exists a. simpl. rewrite app_nil_r. auto.
  - rewrite Adds_cons. cbn [fst concat].
    destruct (Add_run ldis s a Habs) as [Habs1 _].
    destruct (run_watermark ldis a seen H0 Hinv) as [H0' Hinv'].
    destruct (IH _ _ _ Habs1 H0' Hinv') as (a' & Habs' & Hw).
    exists a'. split; [exact Habs'|].
    intros i Hi. rewrite app_assoc. now apply Hw.
Qed.

End CounterOverBatches.

(** X16. Records added in order move the counter all the way: on a ready
    store whose counter reads [n], a batch whose indices are
    [n, n+1, ..., n+k-1] in this order, with keys the store accepts and
    [n + k <= 2^64-1], is added successfully and leaves the counter at
    [n + k]. *)
Theorem Add_in_order_advances_counter
        (s : Storage) (ldis : list LeafDedupInfo) (n : Z) :
  ready s = true -> LogSize s = Ok n ->
  Forall (fun ldi => valid_key (LeafID ldi) = true) ldis ->
  map (fun ldi : LeafDedupInfo => Idx ldi) ldis
  = seqZ n (Z.of_nat (length ldis)) ->
  n + Z.of_nat (length ldis) <= uint64_max ->
  snd (Add s ldis) = Ok tt /\
  LogSize (fst (Add s ldis)) = Ok (n + Z.of_nat (length ldis)).
Proof.
  intros Hr Hn Hall Hseq Hb. destruct (ready_abstracts s Hr) as [a Habs].
  rewrite (LogSize_abstracts s a Habs) in Hn. injection Hn as <-.
  destruct (Add_run ldis s a Habs) as [Habs' Ho].
  destruct (run_counter_in_order ldis a
              (abstracts_counter_range s a Habs) Hall Hseq Hb) as [H1 H2].
  rewrite H1 in Ho. split; [exact Ho|].
  rewrite (LogSize_abstracts _ _ Habs'), H2. reflexivity.
Qed.

Lemma Add_in_order_advances_counter_witness :
  let ldis := [mkLeaf (bytes_of_string "a") 0 10;
               mkLeaf (bytes_of_string "b") 1 11;
               mkLeaf (bytes_of_string "a") 2 12] in
  snd (Add fresh ldis) = Ok tt /\ LogSize (fst (Add fresh ldis)) = Ok (0 + 3).
Proof.
  intros ldis.
  apply (Add_in_order_advances_counter fresh ldis 0);
    [reflexivity|reflexivity| |reflexivity|].
  - repeat constructor.
  - unfold uint64_max. simpl. lia.
Defined.

(** X17. Records whose index is not the counter's value never move it: on
    a ready store whose counter reads [n], a batch none of whose records
    has index [n] leaves the counter at [n], whatever else it writes. *)
Theorem Add_off_frontier_keeps_counter
        (s : Storage) (ldis : list LeafDedupInfo) (n : Z) :
  ready s = true -> LogSize s = Ok n ->
  Forall (fun ldi : LeafDedupInfo => Idx ldi <> n) ldis ->
  LogSize (fst (Add s ldis)) = Ok n.
Proof.
  intros Hr Hn Hall. destruct (ready_abstracts s Hr) as [a Habs].
  rewrite (LogSize_abstracts s a Habs) in Hn. injection Hn as <-.
  destruct (Add_run ldis s a Habs) as [Habs' _].
  rewrite (LogSize_abstracts _ _ Habs').
  now rewrite (run_counter_fixed ldis a Hall).
Qed.

Lemma Add_off_frontier_keeps_counter_witness :
  let ldis := [mkLeaf (bytes_of_string "a") 7 70;
               mkLeaf (bytes_of_string "b") 1 11;
               mkLeaf (bytes_of_string "c") 2 12] in
  LogSize (fst (Add fresh ldis)) = Ok 0 /\
  Get (fst (Add fresh ldis)) (bytes_of_string "b")
  = Ok ({| Idx := 1; Timestamp := 11 |}, true).
Proof.
  intros ldis. split; [|reflexivity].
  apply (Add_off_frontier_keeps_counter fresh ldis 0);
    [reflexivity|reflexivity|].
  repeat constructor; discriminate.
Defined.

(** X18. The counter is a sound watermark: on a store created by
    [NewStorage] and written by any sequence of [Add] calls, every index
    below the value of [LogSize] was the index of some record passed to
    one of these calls. *)
Theorem counter_is_a_sound_watermark
        (calls : list (list LeafDedupInfo)) (n i : Z) :
  LogSize (fst (Adds fresh calls)) = Ok n ->
  0 <= i < n ->
  exists ldi, In ldi (concat calls) /\ Idx ldi = i.
Proof.
  intros Hn Hi.
  destruct (Adds_watermark calls fresh _ [] fresh_abstracts)
    as (a' & Habs' & Hw).
  - simpl. lia.
  - simpl. intros j Hj. lia.
  - rewrite (LogSize_abstracts _ _ Habs') in Hn. injection Hn as <-.
    apply (Hw i Hi).
Qed.

Lemma counter_is_a_sound_watermark_witness :
  let calls := [ [mkLeaf (bytes_of_string "a") 0 10;
                  mkLeaf (bytes_of_string "b") 2 12];
                 [mkLeaf (bytes_of_string "c") 1 11] ] in
  exists ldi, In ldi (concat calls) /\ Idx ldi = 1.
Proof.
  intros calls.
  apply (counter_is_a_sound_watermark calls 2 1); [reflexivity|lia].
Defined.

(** *** Adding again, and adding in another order *)

Section Replay.

Lemma step_records_own (a : view) (ldi : LeafDedupInfo) :
  acceptable ldi ->
  keeps_old (entries (fst (step a ldi)) !! LeafID ldi) (Idx ldi) = true.
Proof.
  intros [Hv Hwf]. unfold step.
  destruct (keeps_old (entries a !! LeafID ldi) (Idx ldi)) eqn:Ek;
    [exact Ek|].
  rewrite Hv. cbn [fst entries]. rewrite lookup_insert_eq.
  change (itob (Idx ldi) ++ itob (Timestamp ldi)) with (encode ldi).
  rewrite keeps_old_encoded by assumption. apply Z.leb_refl.
Qed.

Lemma acceptable_uint64 (ldis : list LeafDedupInfo) :
  Forall acceptable ldis ->
  Forall (fun ldi : LeafDedupInfo => is_uint64 (Idx ldi)) ldis.
Proof.
  intros H. eapply Forall_impl; [exact H|].
  intros ldi [_ [Hi _]]. exact Hi.
Qed.

(** After a batch went through, each of its records loses the tie-break. *)
Lemma run_then_all_kept (ldis : list LeafDedupInfo) :
  forall a : view,
    Forall acceptable ldis ->
    Forall (fun ldi : LeafDedupInfo =>
              keeps_old (entries (fst (run a ldis)) !! LeafID ldi) (Idx ldi)
              = true) ldis.
Proof.
  induction ldis as [|ldi rest IH]; intros a Hall; [constructor|].
  apply Forall_cons in Hall as [Hacc Hrest]. simpl run.
  pose proof (step_valid a ldi (proj1 Hacc)) as Hok.
  pose proof (step_records_own a ldi Hacc) as Hown.
  destruct (step a ldi) as [a' ok]. simpl in Hok, Hown. subst ok.
  constructor.
  - apply run_keeps_old_mono; [now apply acceptable_uint64|exact Hown].
  - now apply IH.
Qed.

(** A batch all of whose records lose the tie-break writes no entry. *)
Lemma run_all_kept_noop (ldis : list LeafDedupInfo) :
  forall a : view,
    Forall (fun ldi : LeafDedupInfo =>
              keeps_old (entries a !! LeafID ldi) (Idx ldi) = true) ldis ->
    snd (run a ldis) = None /\ entries (fst (run a ldis)) = entries a.
Proof.
  induction ldis as [|ldi rest IH]; intros a Hall; simpl run.
  - split; reflexivity.
  - apply Forall_cons in Hall as [Hk Hrest].
    rewrite (step_keeps a ldi Hk).
    apply (IH {| entries := entries a;
                 counter := bump (counter a) (Idx ldi) |} Hrest).
Qed.

Lemma merge_index (rs : list SCTDedupInfo) :
  forall c : SCTDedupInfo,
    Idx <$> fold_left merge rs (Some c)
    = Some (fold_left Z.min (map Idx rs) (Idx c)).
Proof.
  induction rs as [|x rs IH]; intros c; cbn [fold_left merge map];
    [reflexivity|].
  destruct (Z.leb_spec (Idx c) (Idx x)); rewrite IH.
  - now rewrite Z.min_l.
  - now rewrite Z.min_r by lia.
Qed.

Lemma fold_min_In (l : list Z) :
  forall i, In (fold_left Z.min l i) (i :: l).
Proof.
  induction l as [|x l IH]; intros i; cbn [fold_left]; [now left|].
  destruct (IH (Z.min i x)) as [H|H].
  - rewrite <- H. destruct (Z.min_spec i x) as [[_ ->]|[_ ->]].
    + now left.
    + right. now left.
  - right. now right.
Qed.

Lemma fold_min_all (l : list Z) (i x : Z) :
  In x (i :: l) -> fold_left Z.min l i <= x.
Proof.
  intros [<-|Hin]; [apply fold_min_le_init|now apply fold_min_lower_bound].
Qed.

Lemma fold_min_Permutation (l l' : list Z) (i i' : Z) :
  i :: l ≡ₚ i' :: l' -> fold_left Z.min l i = fold_left Z.min l' i'.
Proof.
  intros Hp.
  pose proof (fold_min_In l i) as H1. pose proof (fold_min_In l' i') as H2.
  apply (Permutation_in _ Hp) in H1.
  apply (Permutation_in _ (Permutation_sym Hp)) in H2.
  apply (fold_min_all l' i') in H1. apply (fold_min_all l i) in H2. lia.
Qed.

(** The index left by the tie-break does not depend on the order. *)
Lemma merge_index_Permutation (rs rs' : list SCTDedupInfo) :
  rs ≡ₚ rs' ->
  Idx <$> fold_left merge rs None = Idx <$> fold_left merge rs' None.
Proof.
  intros Hp. destruct rs as [|r l], rs' as [|r' l'].
  - reflexivity.
  - apply Permutation_nil_cons in Hp. contradiction.
  - symmetry in Hp. apply Permutation_nil_cons in Hp. contradiction.
  - cbn [fold_left merge]. rewrite !merge_index. f_equal.
    apply fold_min_Permutation.
    change (Idx r :: map Idx l) with (map Idx (r :: l)).
    change (Idx r' :: map Idx l') with (map Idx (r' :: l')).
    now apply Permutation_map.
Qed.

Lemma stored_index_of_view (s : Storage) (a : view) (id : bytes)
      (cur : option SCTDedupInfo) :
  abstracts s a -> entries a !! id = encode <$> cur -> wf_opt cur ->
  stored_index s id = Idx <$> cur.
Proof.
  intros Habs He Hw. unfold stored_index.
  rewrite (Get_abstracts s a id Habs), He.
  destruct cur as [c|]; [|reflexivity]. cbn [fmap option_fmap option_map].
  destruct Hw as [Hi Ht]. unfold encode.
  rewrite btov_encoded by assumption. reflexivity.
Qed.

End Replay.

(** X19. Adding a batch again changes no entry: on a ready store, after
    a batch of acceptable records was added, adding the same batch once
    more succeeds and leaves every value of the dedup bucket, and so
    every result of [Get], as the first call left it. *)
Theorem Add_again_changes_no_entry
        (s : Storage) (ldis : list LeafDedupInfo) :
  ready s = true -> Forall acceptable ldis ->
  let s1 := fst (Add s ldis) in
  snd (Add s ldis) = Ok tt /\
  snd (Add s1 ldis) = Ok tt /\
  forall id : bytes,
    dedup_entry (fst (Add s1 ldis)) id = dedup_entry s1 id /\
    Get (fst (Add s1 ldis)) id = Get s1 id.
Proof.
  intros Hr Hall s1. destruct (ready_abstracts s Hr) as [a Habs].
  destruct (Add_run ldis s a Habs) as [Habs1 Ho1]. fold s1 in Habs1.
  destruct (Add_run ldis s1 _ Habs1) as [Habs2 Ho2].
  destruct (run_all_kept_noop ldis _ (run_then_all_kept ldis a Hall))
    as [Hnone Hsame].
  split; [|split].
  - rewrite Ho1.
    destruct (snd (run a ldis)) as [i|] eqn:Er; [|reflexivity].
    destruct (run_failure ldis a i Er) as (x & Hin & _ & Hv).
    destruct (proj1 (List.Forall_forall _ _) Hall x Hin) as [Hv' _].
    congruence.
  - rewrite Ho2, Hnone. reflexivity.
  - intros id. split.
    + rewrite (abstracts_dedup_entry _ _ id Habs2), Hsame.
      symmetry. now apply abstracts_dedup_entry.
    + rewrite (Get_abstracts _ _ id Habs2), Hsame.
      symmetry. now apply Get_abstracts.
Qed.

(** The batch 0, 2, 1 is added twice: the second call writes no entry,
    though it moves the counter from 2 to 3. *)
Lemma Add_again_changes_no_entry_witness :
  let a := bytes_of_string "a" in
  let ldis := [mkLeaf a 0 10; mkLeaf (bytes_of_string "b") 2 12;
               mkLeaf a 1 11] in
  let s1 := fst (Add fresh ldis) in
  snd (Add s1 ldis) = Ok tt /\
  Get (fst (Add s1 ldis)) a = Get s1 a /\
  LogSize s1 = Ok 2 /\ LogSize (fst (Add s1 ldis)) = Ok 3.
Proof.
  intros a ldis s1.
  assert (Hacc : Forall acceptable ldis).
  { repeat constructor; unfold is_uint64; simpl; lia. }
  destruct (Add_again_changes_no_entry fresh ldis eq_refl Hacc)
    as (_ & H2 & H3).
  split; [exact H2|]. split; [exact (proj2 (H3 a))|].
  split; reflexivity.
Defined.

(** X20. The index stored for a leaf does not depend on the order of the
    records: on a ready store with no entry for [leafID], two batches of
    acceptable records that are permutations of each other leave the same
    index for [leafID] (they may leave different timestamps when the
    minimum index comes with several). *)
Theorem stored_index_is_order_independent
        (s : Storage) (ldis ldis' : list LeafDedupInfo) (leafID : bytes) :
  ready s = true -> dedup_entry s leafID = None ->
  Forall acceptable ldis -> ldis ≡ₚ ldis' ->
  stored_index (fst (Add s ldis)) leafID
  = stored_index (fst (Add s ldis')) leafID.
Proof.
  intros Hr Hnone Hall Hp.
  assert (Hall' : Forall acceptable ldis') by now rewrite <- Hp.
  destruct (ready_abstracts s Hr) as [a Habs].
  rewrite (abstracts_dedup_entry s a leafID Habs) in Hnone.
  destruct (Add_run ldis s a Habs) as [Habs1 _].
  destruct (Add_run ldis' s a Habs) as [Habs2 _].
  destruct (run_winner leafID ldis a None Hnone I Hall) as (_ & He1 & Hw1).
  destruct (run_winner leafID ldis' a None Hnone I Hall') as (_ & He2 & Hw2).
  rewrite (stored_index_of_view _ _ _ _ Habs1 He1 Hw1).
  rewrite (stored_index_of_view _ _ _ _ Habs2 He2 Hw2).
  apply merge_index_Permutation, Permutation_map.
  now rewrite Hp.
Qed.

Lemma stored_index_is_order_independent_witness :
  let a := bytes_of_string "a" in
  let ldis := [mkLeaf a 5 50; mkLeaf a 3 30; mkLeaf (bytes_of_string "b") 0 9] in
  let ldis' := [mkLeaf a 3 30; mkLeaf (bytes_of_string "b") 0 9; mkLeaf a 5 50] in
  stored_index (fst (Add fresh ldis)) a = Some 3 /\
  stored_index (fst (Add fresh ldis')) a = Some 3.
Proof.
  intros a ldis ldis'.
  assert (Hacc : Forall acceptable ldis).
  { repeat constructor; unfold is_uint64; simpl; lia. }
  assert (Hp : ldis ≡ₚ ldis').
  { unfold ldis, ldis'.
    apply (Permutation_cons_app [_; _] []). reflexivity. }
  pose proof (stored_index_is_order_independent fresh ldis ldis' a
                eq_refl eq_refl Hacc Hp) as H.
  split; [reflexivity|]. rewrite <- H. reflexivity.
Defined.

(** *** Creating a log *)

Section NewLogFacts.

Context {Ctx Opts TimeSource CpSigner StorageT Leaf SCT E : Type}.
Variable NewCpSigner : scti.Signer -> string -> TimeSource -> sum E CpSigner.
Variable buildV1SCT : scti.Signer -> Leaf -> sum E SCT.
Variables (ctx : Ctx) (cvOpts : Opts) (ts : TimeSource).
Variable cs : Ctx -> CpSigner -> sum E StorageT.

(** X21. [NewLog] returns an error exactly for bad arguments, checked in
    this order: an empty origin, then a nil signer, then a signer whose
    public key is not an ECDSA key.  The error depends on these arguments
    alone: neither the checkpoint signer nor the storage constructor has a
    say in it. *)
Theorem NewLog_fails_iff
        (origin : string) (signer : option scti.Signer)
        (e : scti.NewLog_error) :
  scti.NewLog _ _ _ _ _ _ _ _ NewCpSigner buildV1SCT
              ctx origin signer cvOpts cs ts = scti.Failed e
  <->
  (origin = ""%string /\ e = scti.ErrEmptyOrigin) \/
  (origin <> ""%string /\ signer = None /\ e = scti.ErrEmptySigner) \/
  (origin <> ""%string /\
   exists sg n,
     signer = Some sg /\ scti.Public sg = scti.OtherPublicKey n /\
     e = scti.ErrUnsupportedKeyType (scti.OtherPublicKey n)).
Proof.
  unfold scti.NewLog.
  destruct (String.eqb_spec origin "") as [->|Hne].
  - split.
    + intros [= <-]. now left.
    + intros [[_ ->]|[[H _]|[H _]]]; [reflexivity|contradiction..].
  - destruct signer as [sg|].
    + destruct (scti.Public sg) as [|n] eqn:Ek.
      * split.
        -- destruct (NewCpSigner sg origin ts) as [x|cp]; [discriminate|].
           destruct (cs ctx cp); discriminate.
        -- intros [[H _]|[(_ & H & _)|(_ & sg' & n & [= <-] & Hk & _)]];
             [contradiction|discriminate|congruence].
      * split.
        -- intros [= <-]. right. right. split; [exact Hne|].
           exists sg, n. auto.
        -- intros [[H _]|[(_ & H & _)|(_ & sg' & n' & [= <-] & Hk & ->)]];
             [contradiction|discriminate|].
           rewrite Ek in Hk. injection Hk as <-. reflexivity.
    + split.
      * intros [= <-]. right. left. auto.
      * intros [[H _]|[(_ & _ & ->)|(_ & sg' & n & H & _)]];
          [contradiction|reflexivity|discriminate].
Qed.

(** X22. [NewLog] returns a log only for a non-empty origin and an ECDSA
    signer, once the checkpoint signer was built for that signer, origin
    and time source and the storage constructor, called with it, returned
    a storage; the log carries the origin, the validation options and
    that storage, and signs SCTs with the signer it was given. *)
Theorem NewLog_returns_iff
        (origin : string) (signer : option scti.Signer)
        (l : scti.log Opts StorageT Leaf SCT E) :
  scti.NewLog _ _ _ _ _ _ _ _ NewCpSigner buildV1SCT
              ctx origin signer cvOpts cs ts = scti.Returned l
  <->
  origin <> ""%string /\
  exists sg cp st,
    signer = Some sg /\ scti.Public sg = scti.EcdsaPublicKey /\
    NewCpSigner sg origin ts = inr cp /\ cs ctx cp = inr st /\
    l = {| scti.origin := origin;
           scti.signSCT := buildV1SCT sg;
           scti.chainValidationOpts := cvOpts;
           scti.storage := st |}.
Proof.
  unfold scti.NewLog.
  destruct (String.eqb_spec origin "") as [->|Hne].
  - split; [discriminate|]. intros [H _]. contradiction.
  - destruct signer as [sg|].
    + destruct (scti.Public sg) as [|n] eqn:Ek.
      * destruct (NewCpSigner sg origin ts) as [x|cp] eqn:Ec.
        -- split; [discriminate|].
           intros (_ & sg' & cp & st & [= <-] & _ & Hc & _). congruence.
        -- destruct (cs ctx cp) as [x|st] eqn:Es.
           ++ split; [discriminate|].
              intros (_ & sg' & cp' & st & [= <-] & _ & Hc & Hs & _).
              rewrite Ec in Hc. injection Hc as <-. congruence.
           ++ split.
              ** intros [= <-]. split; [exact Hne|].
                 exists sg, cp, st. auto 6.
              ** intros (_ & sg' & cp' & st' & [= <-] & _ & Hc & Hs & ->).
                 rewrite Ec in Hc. injection Hc as <-.
                 rewrite Es in Hs. injection Hs as <-. reflexivity.
      * split; [discriminate|].
        intros (_ & sg' & cp & st & [= <-] & Hk & _). congruence.
    + split; [discriminate|].
      intros (_ & sg' & cp & st & H & _). discriminate.
Qed.

End NewLogFacts.

(** An empty origin wins over a nil signer, and over a storage
    constructor that would fail. *)
Lemma NewLog_fails_iff_witness :
  scti.NewLog unit unit unit unit unit unit unit unit
    (fun _ _ _ => inr tt) (fun _ _ => inr tt)
    tt ""%string None tt (fun _ _ => inl tt) tt
  = scti.Failed scti.ErrEmptyOrigin /\
  scti.NewLog unit unit unit unit unit unit unit unit
    (fun _ _ _ => inr tt) (fun _ _ => inr tt)
    tt "log"%string
    (Some {| scti.Public := scti.OtherPublicKey "*rsa.PublicKey" |})
    tt (fun _ _ => inl tt) tt
  = scti.Failed
      (scti.ErrUnsupportedKeyType (scti.OtherPublicKey "*rsa.PublicKey")).
Proof.
  split.
  - apply (proj2 (NewLog_fails_iff (fun _ _ _ => inr tt) (fun _ _ => inr tt)
                    tt tt tt (fun _ _ => inl tt) ""%string None
                    scti.ErrEmptyOrigin)).
    left. split; reflexivity.
  - apply (proj2 (NewLog_fails_iff (fun _ _ _ => inr tt) (fun _ _ => inr tt)
                    tt tt tt (fun _ _ => inl tt) "log"%string _ _)).
    right. right. split; [discriminate|].
    eexists _, _. repeat split.
Defined.

Lemma NewLog_returns_iff_witness :
  let sg := {| scti.Public := scti.EcdsaPublicKey |} in
  exists l,
    scti.NewLog unit unit unit unit nat unit unit unit
      (fun _ _ _ => inr tt) (fun _ _ => inr tt)
      tt "log"%string (Some sg) tt (fun _ _ => inr 7%nat) tt
    = scti.Returned l /\
    scti.origin _ _ _ _ _ l = "log"%string /\
    scti.storage _ _ _ _ _ l = 7%nat.
Proof.
  intros sg. eexists. split; [|split].
  - apply (proj2 (NewLog_returns_iff (fun _ _ _ => inr tt) (fun _ _ => inr tt)
                    tt tt tt (fun _ _ => inr 7%nat) "log"%string (Some sg) _)).
    split; [discriminate|]. exists sg, tt, 7%nat. repeat split.
  - reflexivity.
  - reflexivity.
Defined.

(** *** A store opened without its counter *)

Lemma Adds_not_ready (calls : list (list LeafDedupInfo)) (s : Storage) :
  opened s = true -> ready s = false -> fst (Adds s calls) = s.
Proof.
  intros Ho Hr. induction calls as [|ldis rest IH]; [reflexivity|].
  rewrite Adds_cons. cbn [fst]. now rewrite (Add_not_ready s ldis Ho Hr).
Qed.

(** X23. [NewStorage] checks the buckets, not the counter: a database
    with both buckets and no "size" key is opened as it is, and the store
    stays unusable for good, since no [Add] call changes it: after any
    sequence of [Add] calls the store is the same and [LogSize] still
    returns the missing-size error. *)
Theorem NewStorage_does_not_check_counter
        (d : bolt.DB) (calls : list (list LeafDedupInfo)) :
  opened {| db := d |} = true -> size_entry {| db := d |} = None ->
  NewStorage d = Ok {| db := d |} /\
  fst (Adds {| db := d |} calls) = {| db := d |} /\
  LogSize (fst (Adds {| db := d |} calls)) = Err ErrNoLogSize.
Proof.
  intros Ho Hz.
  assert (Hr : ready {| db := d |} = false).
  { unfold ready. now rewrite Hz, andb_false_r. }
  split; [apply (NewStorage_reopen {| db := d |} Ho)|].
  rewrite (Adds_not_ready calls _ Ho Hr). split; [reflexivity|].
  destruct (opened_buckets _ Ho) as (dm & sm & Hd & Hs).
  unfold size_entry in Hz. rewrite Hs in Hz.
  unfold LogSize, bolt.View, bolt.bind, bolt.Tx_Bucket, bolt.Bucket_Get,
    bolt.ret.
  now rewrite Hs, Hs, Hz.
Qed.

Lemma NewStorage_does_not_check_counter_witness :
  let calls := [ [mkLeaf (bytes_of_string "a") 0 10] ] in
  NewStorage (db store_without_size) = Ok store_without_size /\
  fst (Adds store_without_size calls) = store_without_size /\
  LogSize (fst (Adds store_without_size calls)) = Err ErrNoLogSize.
Proof.
  intros calls.
  apply (NewStorage_does_not_check_counter (db store_without_size) calls);
    reflexivity.
Defined.
